(** * ReAct agent loop (react_api.py): model and verified properties

    The development follows the source file top to bottom:
    - [Py]: the Python values and built-in string operations the program
      relies on ([str.find], [in], [str.split], [str.strip], indexing);
    - [Json]: [extract_json], the brace-balanced block extractor;
    - [Agent]: the tool registry and the loop of [main], written in a small
      state-and-exception monad whose state carries the local variables of
      [main] together with the sequence of observable calls it makes. *)

From Stdlib Require Import List Ascii Bool Arith ZArith Lia.
From Stdlib Require String.
Import ListNotations String.StringSyntax.

Delimit Scope string_scope with string.

(* ================================================================== *)
(** * Python values and string built-ins *)
(* ================================================================== *)

Module Py.

(** A Python [str], as the sequence of its characters.  Characters are
    code points below 256. *)
Definition str := list ascii.

(** A string literal of the source. *)
Definition lit (s : String.string) : str := String.list_ascii_of_string s.
Arguments lit s%_string.

(** A literal of the source that contains double quotes, written here with
    single quotes in their place. *)
Definition quoted (s : String.string) : str :=
  map (fun c => if Ascii.eqb c "'" then "034"%char else c) (lit s).
Arguments quoted s%_string.

(** The exceptions that can cross [main].  [ValueError] carries its message;
    [JSONDecodeError] is what [json.loads] raises; [External] stands for
    whatever a collaborator (the HTTP client, a tool implementation) raises,
    tagged by the collaborator. *)
Inductive exn : Type :=
| IndexError
| ValueError (msg : str)
| JSONDecodeError (msg : str)
| External (tag : str).

(** The result of an expression that may raise. *)
Definition result (A : Type) : Type := (exn + A)%type.

Definition ok {A} (a : A) : result A := inr a.
Definition throw {A} (e : exn) : result A := inl e.

Definition rbind {A B} (r : result A) (k : A -> result B) : result B :=
  match r with
  | inl e => inl e
  | inr a => k a
  end.

(** [s.startswith(p)] *)
Fixpoint startswith (p s : str) : bool :=
  match p, s with
  | [], _ => true
  | _ :: _, [] => false
  | a :: p', b :: s' => Ascii.eqb a b && startswith p' s'
  end.

(** [s.find(sub)]: the lowest index at which [sub] occurs; [None] is
    Python's [-1]. *)
Fixpoint find (sub s : str) : option nat :=
  if startswith sub s then Some 0
  else match s with
       | [] => None
       | _ :: s' => option_map S (find sub s')
       end.

(** [sub in s] *)
Definition contains (sub s : str) : bool :=
  match find sub s with
  | Some _ => true
  | None => false
  end.

(** [s.partition(sep)] when [sep] occurs: the text before the first
    occurrence and the text after it. *)
Fixpoint partition (sep s : str) : option (str * str) :=
  if startswith sep s then Some ([], skipn (length sep) s)
  else match s with
       | [] => None
       | c :: s' =>
           match partition sep s' with
           | Some (a, b) => Some (c :: a, b)
           | None => None
           end
       end.

(** The pieces of [s] between the occurrences of a non-empty [sep], found
    left to right without overlap.  Every cut removes at least one
    character, so [fuel] cuts are enough once [fuel] reaches [length s]. *)
Fixpoint split_fuel (fuel : nat) (sep s : str) : list str :=
  match fuel with
  | 0 => [s]
  | S fuel' =>
      match partition sep s with
      | None => [s]
      | Some (a, b) => a :: split_fuel fuel' sep b
      end
  end.

(** [s.split(sep)]; Python raises [ValueError] on an empty separator. *)
Definition split (sep s : str) : result (list str) :=
  match sep with
  | [] => throw (ValueError (lit "empty separator"))
  | _ :: _ => ok (split_fuel (length s) sep s)
  end.

(** [l[i]] for [i >= 0] *)
Definition item {A} (l : list A) (i : nat) : result A :=
  match nth_error l i with
  | Some a => ok a
  | None => throw IndexError
  end.

(** The characters [str.strip()] removes: the code points below 256 for
    which [str.isspace] holds. *)
Definition isspace (c : ascii) : bool :=
  let n := nat_of_ascii c in
  ((9 <=? n) && (n <=? 13)) || ((28 <=? n) && (n <=? 32))
  || (n =? 133) || (n =? 160).

Fixpoint lstrip (s : str) : str :=
  match s with
  | [] => []
  | c :: s' => if isspace c then lstrip s' else s
  end.

Definition rstrip (s : str) : str := rev (lstrip (rev s)).

(** [s.strip()] *)
Definition strip (s : str) : str := rstrip (lstrip s).

(** The part of a text before the first occurrence of [sep], or the whole
    text when [sep] does not occur. *)
Definition before (sep s : str) : str :=
  match find sep s with
  | Some k => firstn k s
  | None => s
  end.

(** [s[a:b]] for [0 <= a <= b]. *)
Definition slice (s : str) (a b : nat) : str := firstn (b - a) (skipn a s).

End Py.

Export Py.

Notation "x <- r ;;; k" := (rbind r (fun x => k))
  (at level 61, r at next level, right associativity).

(* ================================================================== *)
(** * extract_json (react_api.py, lines 30-44) *)
(* ================================================================== *)

Module Json.

Definition NotFound : exn := ValueError (lit "No JSON object found").
Definition Incomplete : exn :=
  ValueError (lit "No complete JSON object found").

Section Extract.

(** [json.loads] belongs to the standard library, not to this program: it is
    taken as given.  It returns the parsed value, or the message of the
    [JSONDecodeError] it raises. *)
Variable value : Type.
Variable json_loads : str -> str + value.

Definition loads (json_str : str) : result value :=
  match json_loads json_str with
  | inl msg => throw (JSONDecodeError msg)
  | inr v => ok v
  end.

(** The [for i in range(start, len(s))] loop: [rest] is [s[i:]], so its head
    is [s[i]]; [counter] is the Python integer of the same name. *)
Fixpoint scan (s : str) (start i : nat) (counter : Z) (rest : str)
  : result value :=
  match rest with
  | [] => throw Incomplete
  | c :: rest' =>
      if Ascii.eqb c "{" then scan s start (S i) (counter + 1) rest'
      else if Ascii.eqb c "}" then
        let counter := (counter - 1)%Z in
        if (counter =? 0)%Z then loads (slice s start (i + 1))
        else scan s start (S i) counter rest'
      else scan s start (S i) counter rest'
  end.

Definition extract_json (s : str) : result value :=
  match find (lit "{") s with
  | None => throw NotFound
  | Some start => scan s start start 0 (skipn start s)
  end.

End Extract.

Arguments loads {value} json_loads json_str.
Arguments scan {value} json_loads s start i counter rest.
Arguments extract_json {value} json_loads s.

(** ** Vocabulary of the properties *)

(** Text whose braces are properly nested: every ["}"] closes an earlier
    ["{"] of the same text and every ["{"] is closed. *)
Inductive nested : str -> Prop :=
| nested_nil : nested []
| nested_char c l :
    c <> "{"%char -> c <> "}"%char -> nested l -> nested (c :: l)
| nested_braces l1 l2 :
    nested l1 -> nested l2 -> nested ("{"%char :: l1 ++ "}"%char :: l2).

(** What a character adds to the brace depth. *)
Definition delta (c : ascii) : Z :=
  if Ascii.eqb c "{" then 1 else if Ascii.eqb c "}" then -1 else 0.

(** Opening braces minus closing braces of a text. *)
Fixpoint depth (l : str) : Z :=
  match l with
  | [] => 0
  | c :: l' => delta c + depth l'
  end.

End Json.

(* ================================================================== *)
(** * The agent loop (react_api.py, lines 124-127 and 152-203) *)
(* ================================================================== *)

Module Agent.

(** The [choices] of [--log-level]. *)
Inductive level : Type := DEBUG | INFO | WARNING | ERROR | CRITICAL.

(** The parsed command line. *)
Record args : Type := Args { question : str; log_level : level }.

(** The body of a completion response, seen through the only access [main]
    makes to it: [llm_response["choices"][0]["message"]["content"].strip()]
    reads a string out of it or raises. *)
Record response_body : Type := Body { content : result str }.

(** Why the loop was left through a [break]. *)
Inductive reason : Type := MaxIterations | UnknownTool.

(** How one pass through the loop body ends: it reaches the loop test again
    (by [continue] or by running off the end of the body) or it breaks. *)
Inductive ctl : Type := Next | Break (r : reason).

(** How [main] ends.  [Finished] is the exit through the loop test, when
    [final_answer_found] is set. *)
Inductive outcome : Type :=
| Finished
| Aborted (r : reason)
| Raised (e : exn)
| OutOfFuel.

(** The newline character and the literals of [main]. *)
Definition NL : str := ["010"%char].
Definition FINAL_ANSWER : str := lit "Final Answer:".
Definition ACTION : str := lit "Action:".
Definition ACTION_INPUT : str := lit "Action Input:".
Definition OBSERVATION : str := lit "Observation: ".

Fixpoint str_eqb (a b : str) : bool :=
  match a, b with
  | [], [] => true
  | x :: a', y :: b' => Ascii.eqb x y && str_eqb a' b'
  | _, _ => false
  end.

Section Main.

Variable value : Type.
Variable json_loads : str -> str + value.

(** The calls [main] makes to the outside, in order.  A logger event
    records the call to the logger method; whether the record is shown
    depends on the configured level and is the logging library's concern. *)
Inductive event : Type :=
| SetupLogging (l : level)
| Request (content : str)
| LogError (msg : str)
| LogInfo (msg : str)
| LogDebug (msg : str)
| Print (s : str)
| ExtractJson (s : str)
| ToolCall (name : str) (arguments : value).

(** A tool function applied to the mapping [extract_json] returned, expanded
    as keyword arguments: it returns its text or raises. *)
Definition tool : Type := value -> result str.

(** The two tool functions (lines 68-79); what they compute (the clock,
    [json.dumps]) is outside the loop. *)
Variable get_current_time : tool.
Variable get_weather : tool.

Definition tool_maps : list (str * tool) :=
  [ (lit "get_current_time", get_current_time);
    (lit "get_weather", get_weather) ].

(** [d.get(key)] *)
Fixpoint dict_get (d : list (str * tool)) (key : str) : option tool :=
  match d with
  | [] => None
  | (k, v) :: d' => if str_eqb k key then Some v else dict_get d' key
  end.

(** The prompt template (lines 133-149), a constant string. *)
Variable prompt : str.

(** [get_chat_completions(url, [{"role": "user", "content": pad}],
    stop_words=["Observation:"])]: the response body, or the exception of the
    HTTP client. *)
Variable get_chat_completions : str -> result response_body.

(** The local variables of [main], and the calls made so far. *)
Record state : Type := State {
  scratch_pad : str;
  final_answer_found : bool;
  current_iteration : nat;
  final_answer : option str;
  trace : list event
}.

Definition incr_iteration (st : state) : state :=
  State (scratch_pad st) (final_answer_found st) (S (current_iteration st))
        (final_answer st) (trace st).

Definition append_scratch_pad (s : str) (st : state) : state :=
  State (scratch_pad st ++ s) (final_answer_found st) (current_iteration st)
        (final_answer st) (trace st).

Definition set_final_answer_found (st : state) : state :=
  State (scratch_pad st) true (current_iteration st)
        (final_answer st) (trace st).

Definition set_final_answer (a : str) (st : state) : state :=
  State (scratch_pad st) (final_answer_found st) (current_iteration st)
        (Some a) (trace st).

Definition record (e : event) (st : state) : state :=
  State (scratch_pad st) (final_answer_found st) (current_iteration st)
        (final_answer st) (trace st ++ [e]).

(** Statements of [main]: they read and update the state, and either yield
    a value or raise; the state reached when an exception is raised is
    kept. *)
Definition M (A : Type) : Type := state -> result A * state.

Definition ret {A} (a : A) : M A := fun st => (ok a, st).

Definition bind {A B} (c : M A) (k : A -> M B) : M B :=
  fun st =>
    match c st with
    | (inl e, st') => (inl e, st')
    | (inr a, st') => k a st'
    end.

Definition lift {A} (r : result A) : M A := fun st => (r, st).
Definition gets {A} (f : state -> A) : M A := fun st => (ok (f st), st).
Definition modify (f : state -> state) : M unit := fun st => (ok tt, f st).
Definition emit (e : event) : M unit := modify (record e).

Notation "x <- c ;; k" := (bind c (fun x => k))
  (at level 61, c at next level, right associativity).
Notation "c ;; k" := (bind c (fun _ => k))
  (at level 61, right associativity).

(** Lines 182-186. *)
Definition final_answer_branch (response_message : str) : M unit :=
  modify set_final_answer_found ;;
  parts <- lift (split FINAL_ANSWER response_message) ;;
  after <- lift (item parts 1) ;;
  let answer := strip after in
  modify (set_final_answer answer) ;;
  emit (LogInfo answer) ;;
  pad <- gets scratch_pad ;;
  emit (LogDebug pad).

(** Line 189: [response_message.split("Action:")[1].split("\n")[0].strip()] *)
Definition action_of (response_message : str) : result str :=
  parts <- split ACTION response_message ;;;
  after <- item parts 1 ;;;
  lines <- split NL after ;;;
  first <- item lines 0 ;;;
  ok (strip first).

(** Lines 190-192. *)
Definition action_input_of (response_message : str) : result str :=
  parts <- split ACTION_INPUT response_message ;;;
  after <- item parts 1 ;;;
  lines <- split NL after ;;;
  first <- item lines 0 ;;;
  ok (strip first).

(** Lines 189-203. *)
Definition action_branch (response_message : str) : M ctl :=
  action <- lift (action_of response_message) ;;
  action_input <- lift (action_input_of response_message) ;;
  match dict_get tool_maps action with
  | Some tool_fn =>
      emit (ExtractJson action_input) ;;
      tool_arguments <- lift (Json.extract_json json_loads action_input) ;;
      emit (ToolCall action tool_arguments) ;;
      tool_response <- lift (tool_fn tool_arguments) ;;
      modify (append_scratch_pad (NL ++ OBSERVATION ++ tool_response)) ;;
      emit (LogDebug (OBSERVATION ++ tool_response)) ;;
      ret Next
  | None =>
      emit (LogError (lit "Tool not found. Exiting!")) ;;
      ret (Break UnknownTool)
  end.

(** Lines 182-203: the two tests on the completion, one after the other. *)
Definition classify (response_message : str) : M ctl :=
  (if contains FINAL_ANSWER response_message
   then final_answer_branch response_message
   else ret tt) ;;
  if contains ACTION_INPUT response_message
  then action_branch response_message
  else ret Next.

(** One pass through the body of the [while] loop (lines 163-203). *)
Definition iteration : M ctl :=
  modify incr_iteration ;;
  pad <- gets scratch_pad ;;
  emit (Request pad) ;;
  llm_response <- lift (get_chat_completions pad) ;;
  n <- gets current_iteration ;;
  if 10 <? n then
    emit (LogError (lit "Max iterations reached. Exiting")) ;;
    pad <- gets scratch_pad ;;
    emit (Print pad) ;;
    ret (Break MaxIterations)
  else
    raw <- lift (content llm_response) ;;
    let response_message := strip raw in
    emit (LogDebug response_message) ;;
    modify (append_scratch_pad (NL ++ response_message)) ;;
    classify response_message.

(** [while not final_answer_found: ...], unrolled at most [fuel] times. *)
Fixpoint while_loop (fuel : nat) (st : state) : outcome * state :=
  if final_answer_found st then (Finished, st)
  else
    match fuel with
    | 0 => (OutOfFuel, st)
    | S fuel' =>
        match iteration st with
        | (inl e, st') => (Raised e, st')
        | (inr (Break r), st') => (Aborted r, st')
        | (inr Next, st') => while_loop fuel' st'
        end
    end.

(** Lines 153-160. *)
Definition initial_state (a : args) : state :=
  State (prompt ++ NL ++ lit "Question: " ++ question a)
        false 0 None [SetupLogging (log_level a)].

Definition main (fuel : nat) (a : args) : outcome * state :=
  while_loop fuel (initial_state a).

(** The number of completion requests in a trace. *)
Fixpoint requests (t : list event) : nat :=
  match t with
  | [] => 0
  | Request _ :: t' => S (requests t')
  | _ :: t' => requests t'
  end.

(** A trace in which no tool function is called and [extract_json] is not
    applied. *)
Fixpoint no_dispatch (t : list event) : bool :=
  match t with
  | [] => true
  | ExtractJson _ :: _ => false
  | ToolCall _ _ :: _ => false
  | _ :: t' => no_dispatch t'
  end.

(** The state after the request of an iteration has been issued
    (lines 163-168). *)
Definition requested (st : state) : state :=
  record (Request (scratch_pad st)) (incr_iteration st).

(** The state after the completion has been added to the transcript
    (lines 175-180). *)
Definition appended (msg : str) (st : state) : state :=
  append_scratch_pad (NL ++ msg) (record (LogDebug msg) (requested st)).

(** The text between the first occurrence of the final-answer marker and
    the next one (or the end of the text), without surrounding white space;
    [None] when the marker does not occur. *)
Definition answer_of (msg : str) : option str :=
  match find FINAL_ANSWER msg with
  | Some n =>
      Some (strip (before FINAL_ANSWER
                          (skipn (n + length FINAL_ANSWER) msg)))
  | None => None
  end.

(** [new] is [old] with text added at its end. *)
Definition extends (old new : str) : Prop := exists t, new = old ++ t.

End Main.

Arguments Request {value} content.
Arguments LogError {value} msg.
Arguments LogInfo {value} msg.
Arguments LogDebug {value} msg.
Arguments Print {value} s.
Arguments ExtractJson {value} s.
Arguments ToolCall {value} name arguments.
Arguments SetupLogging {value} l.
Arguments scratch_pad {value} s.
Arguments final_answer_found {value} s.
Arguments current_iteration {value} s.
Arguments final_answer {value} s.
Arguments trace {value} s.
Arguments requests {value} t.
Arguments no_dispatch {value} t.
Arguments record {value} e st.
Arguments incr_iteration {value} st.
Arguments append_scratch_pad {value} s st.
Arguments set_final_answer_found {value} st.
Arguments set_final_answer {value} a st.
Arguments final_answer_branch {value} response_message _.
Arguments action_branch {value} json_loads get_current_time get_weather
  response_message _.
Arguments classify {value} json_loads get_current_time get_weather
  response_message _.
Arguments iteration {value} json_loads get_current_time get_weather
  get_chat_completions _.
Arguments while_loop {value} json_loads get_current_time get_weather
  get_chat_completions fuel st.
Arguments initial_state {value} prompt a.
Arguments main {value} json_loads get_current_time get_weather prompt
  get_chat_completions fuel a.
Arguments requested {value} st.
Arguments appended {value} msg st.
Arguments tool_maps {value} get_current_time get_weather.
Arguments dict_get {value} d key.

End Agent.

(* ================================================================== *)
(** * A small concrete setting *)
(* ================================================================== *)

(** Stand-ins for the collaborators, to run the loop on concrete
    completions: a parser that returns the block it is given, tools that
    answer with a fixed text, and a backend that always sends the same
    completion. *)
Module Demo.

Import Agent.

Definition loads : str -> str + str := fun s => inr s.
Definition clock : tool str := fun _ => ok (lit "2024-01-01 12:00:00").
Definition weather : tool str := fun _ => ok (lit "sunny").
Definition prompt : str := lit "Begin!".
Definition cli : args := Args (lit "What time is it?") INFO.

Definition replies (raw : str) : str -> result response_body :=
  fun _ => ok (Body (ok raw)).

Definition start : state str := initial_state prompt cli.

Definition iteration (raw : str) (st : state str) : result ctl * state str :=
  Agent.iteration loads clock weather (replies raw) st.

Definition main (raw : str) : outcome * state str :=
  Agent.main loads clock weather prompt (replies raw) 11 cli.

(** Completions used below. *)
Definition padded_thought : str := lit "  Thought: hmm  ".

Definition answer_and_action : str :=
  lit "Final Answer: 42" ++ NL ++
  lit "Action: get_weather" ++ NL ++
  quoted "Action Input: {'city': 'Paris'}".

Definition two_answers : str := lit "Final Answer: A Final Answer: B".

Definition input_without_action : str := lit "Action Input: {}".

Definition unknown_action : str :=
  lit "Action: get_stock_price" ++ NL ++ lit "Action Input: {}".

Definition weather_action : str :=
  lit "Thought: I need the weather" ++ NL ++
  lit "Action: get_weather" ++ NL ++
  quoted "Action Input: {'city': 'Paris'}".

End Demo.

(* ================================================================== *)
(** * Further vocabulary *)
(* ================================================================== *)

Module Vocabulary.

Import Json Agent.

(** Text that closes [n] objects opened before it and is properly nested
    otherwise. *)
Fixpoint unwinds (n : nat) (body : str) : Prop :=
  match n with
  | 0 => nested body
  | S m => exists l1 l2,
      body = l1 ++ "}"%char :: l2 /\ nested l1 /\ unwinds m l2
  end.

(** A backend that asks for the weather until it sees an observation in
    the transcript, and then answers. *)
Definition scripted (pad : str) : result response_body :=
  if contains (lit "Observation:") pad
  then ok (Body (ok (lit "Thought: I now know the final answer" ++ NL ++
                     lit "Final Answer: It is sunny in Paris")))
  else ok (Body (ok Demo.weather_action)).

Section Dispatch.

Variable value : Type.
Variable json_loads : str -> str + value.
Variable registered : list str.

(** The number of tool calls in a trace. *)
Fixpoint tool_calls (t : list (event value)) : nat :=
  match t with
  | [] => 0
  | ToolCall _ _ :: t' => S (tool_calls t')
  | _ :: t' => tool_calls t'
  end.

(** A trace in which every tool call is for a registered name and comes
    directly after the call of [extract_json] that returned its
    arguments. *)
Fixpoint dispatch_ok (t : list (event value)) : Prop :=
  match t with
  | [] => True
  | ExtractJson input :: t' =>
      match t' with
      | ToolCall name arguments :: t'' =>
          In name registered /\
          Json.extract_json json_loads input = ok arguments /\
          dispatch_ok t''
      | _ => dispatch_ok t'
      end
  | ToolCall _ _ :: _ => False
  | _ :: t' => dispatch_ok t'
  end.

(** Where the flag is set, an answer has been recorded and logged. *)
Definition answered (st : state value) : Prop :=
  final_answer_found st = true ->
  exists answer,
    final_answer st = Some answer /\ In (LogInfo answer) (trace st).

End Dispatch.

Arguments answered {value} st.
Arguments tool_calls {value} t.
Arguments dispatch_ok {value} json_loads registered t.

End Vocabulary.

(* ================================================================== *)
(** * The tool functions and the catalogue (lines 68-127) *)
(* ================================================================== *)

Module Tools.

Import Agent.

(** One entry of [tools]: the name, the description, the declared
    parameters (name, type, description) and the names listed as
    required. *)
Record descriptor : Type := Descriptor {
  name : str;
  description : str;
  properties : list (str * (str * str));
  required : list str
}.

(** Lines 84-122. *)
Definition tools : list descriptor :=
  [ Descriptor (lit "get_current_time") (lit "Get the current time")
      [ (lit "seconds_offset", (lit "number", lit "Offset in seconds")) ]
      [];
    Descriptor (lit "get_weather")
      (lit "Get the weather of a city at a given timestamp")
      [ (lit "city", (lit "string", lit "City name"));
        (lit "timestamp", (lit "string", lit "Timestamp")) ]
      [ lit "city"; lit "timestamp" ] ].

(** Line 123. *)
Definition tool_names : list str := map name tools.

(** What a tool raises when it is called with keyword arguments that do
    not fit its parameters. *)
Definition TypeError : exn := External (lit "TypeError").

Section Kwargs.

(** The values inside the object [json.loads] returned, [json.dumps] on
    such a value, the integer [0], and the clock: the text
    [strftime] gives for now plus that many seconds, or the exception of
    [timedelta]. *)
Variable jv : Type.
Variable json_dumps : jv -> str.
Variable zero : jv.
Variable strftime_now_plus : jv -> result str.

(** The dictionary [json.loads] returned for an object, expanded with
    [**] into keyword arguments. *)
Definition kwargs : Type := list (str * jv).

(** [d.get(key)] *)
Fixpoint lookup (d : kwargs) (key : str) : option jv :=
  match d with
  | [] => None
  | (k, v) :: d' => if str_eqb k key then Some v else lookup d' key
  end.

(** Every keyword is one of the parameters of the function. *)
Definition declared (parameters : list str) (d : kwargs) : bool :=
  forallb (fun kv => existsb (str_eqb (fst kv)) parameters) d.

(** Lines 68-71: [get_current_time(seconds_offset=0)]. *)
Definition get_current_time : tool kwargs := fun d =>
  if declared [lit "seconds_offset"] d then
    strftime_now_plus
      (match lookup d (lit "seconds_offset") with
       | Some seconds_offset => seconds_offset
       | None => zero
       end)
  else throw TypeError.

(** Lines 74-79: [get_weather(city, timestamp=None)]. *)
Definition get_weather : tool kwargs := fun d =>
  if declared [lit "city"; lit "timestamp"] d then
    match lookup d (lit "city") with
    | Some city =>
        ok (quoted "{'temperature': 25, 'weather': 'sunny', 'city': " ++
            json_dumps city ++ lit "}")
    | None => throw TypeError
    end
  else throw TypeError.

End Kwargs.

Arguments lookup {jv} d key.
Arguments declared {jv} parameters d.
Arguments get_current_time {jv} zero strftime_now_plus _.
Arguments get_weather {jv} json_dumps _.

End Tools.

(* ================================================================== *)
(** * Facts about the string built-ins *)
(* ================================================================== *)

Module PyFacts.

(** The built-ins on small inputs. *)
Example find_first_occurrence : find (lit "ab") (lit "xxabyyab") = Some 2.
Proof. reflexivity. Qed.

Example find_absent : find (lit "ab") (lit "xxa") = None.
Proof. reflexivity. Qed.

Example split_pieces :
  split (lit ", ") (lit "a, b, c") = ok [lit "a"; lit "b"; lit "c"].
Proof. reflexivity. Qed.

Example split_absent : split (lit ":") (lit "abc") = ok [lit "abc"].
Proof. reflexivity. Qed.

Example split_no_overlap : split (lit "aa") (lit "aaa") = ok [[]; lit "a"].
Proof. reflexivity. Qed.

Example strip_both_ends :
  strip (" "%char :: "009"%char :: lit "a b" ++ ["010"%char; " "%char]) =
  lit "a b".
Proof. reflexivity. Qed.

Lemma startswith_app (p t : str) : startswith p (p ++ t) = true.
Proof.
  induction p as [|a p IH]; simpl; [reflexivity|].
  now rewrite Ascii.eqb_refl, IH.
Qed.

Lemma startswith_inv (p s : str) :
  startswith p s = true -> s = p ++ skipn (length p) s.
Proof.
  revert s; induction p as [|a p IH]; intros [|b s] H; simpl in *;
    try reflexivity; try discriminate.
  apply andb_true_iff in H as [Hab Hps].
  apply Ascii.eqb_eq in Hab; subst b.
  f_equal; now apply IH.
Qed.

Lemma startswith_iff (p s : str) :
  startswith p s = true <-> exists t, s = p ++ t.
Proof.
  split.
  - intros H; eexists; now apply startswith_inv.
  - intros [t ->]; apply startswith_app.
Qed.

Lemma find_cons (sub : str) (c : ascii) (s : str) :
  find sub (c :: s) =
  if startswith sub (c :: s) then Some 0 else option_map S (find sub s).
Proof. reflexivity. Qed.

Lemma find_nil (sub : str) :
  find sub [] = if startswith sub [] then Some 0 else None.
Proof. reflexivity. Qed.

Lemma partition_cons (sep : str) (c : ascii) (s : str) :
  partition sep (c :: s) =
  if startswith sep (c :: s) then Some ([], skipn (length sep) (c :: s))
  else match partition sep s with
       | Some (a, b) => Some (c :: a, b)
       | None => None
       end.
Proof. reflexivity. Qed.

(** [partition] cuts at the position [find] reports. *)
Lemma partition_find (sep s : str) :
  partition sep s =
  match find sep s with
  | Some n => Some (firstn n s, skipn (n + length sep) s)
  | None => None
  end.
Proof.
  induction s as [|c s IH].
  - simpl; destruct (startswith sep []); reflexivity.
  - rewrite partition_cons, find_cons.
    destruct (startswith sep (c :: s)); [reflexivity|].
    rewrite IH; destruct (find sep s); reflexivity.
Qed.

Lemma partition_app (sep s a b : str) :
  partition sep s = Some (a, b) -> s = a ++ sep ++ b.
Proof.
  revert a b; induction s as [|c s IH]; intros a b.
  - simpl; destruct (startswith sep []) eqn:E; [|discriminate].
    intros [= <- <-]; now apply startswith_inv in E.
  - rewrite partition_cons.
    destruct (startswith sep (c :: s)) eqn:E.
    + intros [= <- <-]; now apply startswith_inv in E.
    + destruct (partition sep s) as [[a' b']|]; [|discriminate].
      intros [= <- <-]; simpl; f_equal; now apply IH.
Qed.

Lemma partition_shorter (sep s a b : str) :
  sep <> [] -> partition sep s = Some (a, b) -> length b < length s.
Proof.
  intros Hsep H; apply partition_app in H; subst s.
  rewrite !length_app; destruct sep; [congruence|simpl; lia].
Qed.

Lemma partition_nil (sep : str) : sep <> [] -> partition sep [] = None.
Proof. destruct sep; [congruence|reflexivity]. Qed.

(** Fuel beyond the length of the text does not change the pieces. *)
Lemma split_fuel_enough (sep : str) :
  sep <> [] ->
  forall f s f', length s <= f -> length s <= f' ->
                 split_fuel f sep s = split_fuel f' sep s.
Proof.
  intros Hsep; induction f as [|f IH]; intros s f' Hf Hf'.
  - destruct s; [|simpl in Hf; lia].
    destruct f'; cbn [split_fuel]; [reflexivity|].
    now rewrite partition_nil.
  - destruct f' as [|f'].
    + destruct s; [|simpl in Hf'; lia].
      cbn [split_fuel]; now rewrite partition_nil.
    + cbn [split_fuel].
      destruct (partition sep s) as [[a b]|] eqn:E; [|reflexivity].
      apply partition_shorter in E; [|assumption].
      f_equal; apply IH; lia.
Qed.

Lemma split_unfold (sep s : str) :
  sep <> [] ->
  split sep s =
  ok (match partition sep s with
      | None => [s]
      | Some (a, b) => a :: split_fuel (length b) sep b
      end).
Proof.
  intros Hsep; unfold split; destruct sep as [|x sep]; [congruence|].
  f_equal; destruct s as [|c s].
  - simpl; reflexivity.
  - cbn [length split_fuel].
    destruct (partition (x :: sep) (c :: s)) as [[a b]|] eqn:E; [|reflexivity].
    f_equal; apply split_fuel_enough; [assumption| |lia].
    apply partition_shorter in E; [simpl in E; lia|assumption].
Qed.

(** [s.split(sep)[0]] never raises and is the text before the first
    occurrence of [sep]. *)
Lemma split_item_0 (sep s : str) :
  sep <> [] ->
  (parts <- split sep s ;;; item parts 0) = ok (before sep s).
Proof.
  intros Hsep; rewrite split_unfold by assumption; unfold before.
  rewrite partition_find; simpl.
  destruct (find sep s); reflexivity.
Qed.

(** [s.split(sep)[1]] raises [IndexError] when [sep] does not occur, and
    otherwise is the text between the first occurrence of [sep] and the
    next one. *)
Lemma split_item_1 (sep s : str) :
  sep <> [] ->
  (parts <- split sep s ;;; item parts 1) =
  match find sep s with
  | None => throw IndexError
  | Some n => ok (before sep (skipn (n + length sep) s))
  end.
Proof.
  intros Hsep; rewrite split_unfold by assumption.
  rewrite partition_find; simpl.
  destruct (find sep s) as [n|]; [|reflexivity].
  unfold item; simpl.
  set (b := skipn (n + length sep) s).
  assert (E : split_fuel (length b) sep b =
              split_fuel (S (length b)) sep b)
    by (apply split_fuel_enough; [assumption|lia|lia]).
  rewrite E; simpl; unfold before; rewrite partition_find.
  destruct (find sep b); reflexivity.
Qed.

(** [sub in s] holds exactly when [s] can be cut around a copy of [sub]. *)
Lemma contains_iff (sub s : str) :
  contains sub s = true <-> exists a b, s = a ++ sub ++ b.
Proof.
  unfold contains; split.
  - intros H.
    destruct (partition sub s) as [[a b]|] eqn:E.
    + exists a, b; now apply partition_app.
    + rewrite partition_find in E.
      destruct (find sub s); discriminate.
  - intros (a & b & ->).
    induction a as [|c a IH]; simpl app.
    + destruct (sub ++ b) eqn:E.
      * rewrite find_nil, <- E, startswith_app; reflexivity.
      * rewrite find_cons, <- E, startswith_app; reflexivity.
    + rewrite find_cons.
      destruct (startswith sub (c :: a ++ sub ++ b)); [reflexivity|].
      destruct (find sub (a ++ sub ++ b)); [reflexivity|discriminate].
Qed.

Lemma contains_false_find (sub s : str) :
  contains sub s = false <-> find sub s = None.
Proof.
  unfold contains; destruct (find sub s); split; congruence.
Qed.

Lemma contains_rev (sub s : str) :
  contains (rev sub) (rev s) = contains sub s.
Proof.
  apply eq_true_iff_eq; rewrite !contains_iff; split.
  - intros (a & b & E).
    exists (rev b), (rev a).
    rewrite <- (rev_involutive s), E, !rev_app_distr, rev_involutive.
    now rewrite app_assoc.
  - intros (a & b & ->).
    exists (rev b), (rev a).
    now rewrite !rev_app_distr, app_assoc.
Qed.

(** A marker that does not start with white space occurs in a text exactly
    when it occurs in the text without its leading white space. *)
Lemma contains_lstrip (x : ascii) (sub s : str) :
  isspace x = false ->
  contains (x :: sub) (lstrip s) = contains (x :: sub) s.
Proof.
  intros Hx; induction s as [|c s IH]; [reflexivity|].
  simpl lstrip; destruct (isspace c) eqn:Hc; [|reflexivity].
  rewrite IH; unfold contains; rewrite (find_cons (x :: sub) c s).
  assert (E : Ascii.eqb x c = false).
  { destruct (Ascii.eqb x c) eqn:E; [|reflexivity].
    apply Ascii.eqb_eq in E; congruence. }
  cbn [startswith]; rewrite E; simpl.
  destruct (find (x :: sub) s); reflexivity.
Qed.

(** A marker that neither starts nor ends with white space occurs in a text
    exactly when it occurs in the stripped text. *)
Lemma contains_strip (sub s : str) :
  (exists x t, sub = x :: t /\ isspace x = false) ->
  (exists y t, rev sub = y :: t /\ isspace y = false) ->
  contains sub (strip s) = contains sub s.
Proof.
  intros (x & t & -> & Hx) (y & u & Hrev & Hy).
  unfold strip, rstrip.
  rewrite <- contains_rev, rev_involutive, Hrev, contains_lstrip by assumption.
  rewrite <- Hrev, contains_rev.
  now apply contains_lstrip.
Qed.

End PyFacts.

(* ================================================================== *)
(** * Properties of extract_json *)
(* ================================================================== *)

Module JsonFacts.

Import Json PyFacts.

Lemma find_char_cons (c x : ascii) (s : str) :
  find [c] (x :: s) =
  if Ascii.eqb c x then Some 0 else option_map S (find [c] s).
Proof.
  rewrite find_cons; cbn [startswith]; now rewrite andb_true_r.
Qed.

(** [s.find(c)] for a one-character [c] is the length of the longest prefix
    free of [c]. *)
Lemma find_char_app (c : ascii) (pre t : str) :
  ~ In c pre -> find [c] (pre ++ c :: t) = Some (length pre).
Proof.
  induction pre as [|x pre IH]; intros Hpre; simpl app.
  - now rewrite find_char_cons, Ascii.eqb_refl.
  - rewrite find_char_cons.
    destruct (Ascii.eqb c x) eqn:E.
    + apply Ascii.eqb_eq in E; subst x; exfalso; apply Hpre; now left.
    + rewrite IH; [reflexivity|].
      intros Hin; apply Hpre; now right.
Qed.

Lemma find_char_none (c : ascii) (s : str) :
  find [c] s = None <-> ~ In c s.
Proof.
  induction s as [|x s IH].
  - simpl; split; [tauto|reflexivity].
  - rewrite find_char_cons.
    destruct (Ascii.eqb c x) eqn:E.
    + apply Ascii.eqb_eq in E; subst x; split; [discriminate|].
      intros H; exfalso; apply H; now left.
    + apply Ascii.eqb_neq in E.
      destruct (find [c] s) eqn:F; simpl.
      * split; [discriminate|].
        intros H; exfalso.
        assert (Hs : ~ In c s) by (intros Hin; apply H; now right).
        apply IH in Hs; discriminate.
      * split; [|reflexivity].
        intros _ [Hx|Hin]; [congruence|].
        now apply (proj1 IH).
Qed.

Lemma find_char_some (c : ascii) (s : str) (n : nat) :
  find [c] s = Some n ->
  exists pre t, s = pre ++ c :: t /\ ~ In c pre /\ n = length pre.
Proof.
  revert n; induction s as [|x s IH]; intros n.
  - simpl; discriminate.
  - rewrite find_char_cons.
    destruct (Ascii.eqb c x) eqn:E.
    + apply Ascii.eqb_eq in E; subst x.
      intros [= <-]; exists [], s; repeat split; auto.
    + apply Ascii.eqb_neq in E.
      destruct (find [c] s) as [m|] eqn:F; simpl; [|discriminate].
      intros [= <-].
      destruct (IH m eq_refl) as (pre & t & -> & Hpre & ->).
      exists (x :: pre), t; repeat split; auto.
      intros [Hx|Hin]; [congruence|tauto].
Qed.

Lemma slice_middle (pre blk post : str) :
  slice (pre ++ blk ++ post) (length pre) (length pre + length blk) = blk.
Proof.
  unfold slice.
  rewrite skipn_app, skipn_all, Nat.sub_diag; simpl.
  replace (length pre + length blk - length pre) with (length blk) by lia.
  rewrite firstn_app, firstn_all, Nat.sub_diag; simpl.
  apply app_nil_r.
Qed.

(** The depth stays away from zero over a text exactly when it does after
    the first character and over the rest. *)
Lemma never_zero_cons (c : ascii) (rest : str) (counter : Z) :
  (forall k, 1 <= k <= length (c :: rest) ->
             (counter + depth (firstn k (c :: rest)))%Z <> 0%Z) <->
  ((counter + delta c)%Z <> 0%Z /\
   forall k, 1 <= k <= length rest ->
             (counter + delta c + depth (firstn k rest))%Z <> 0%Z).
Proof.
  split.
  - intros H; split.
    + specialize (H 1); cbn [firstn depth length] in H.
      assert (Hk : 1 <= 1 <= S (length rest)) by lia.
      specialize (H Hk); lia.
    + intros k Hk; specialize (H (S k)); cbn [firstn depth length] in H.
      assert (Hk' : 1 <= S k <= S (length rest)) by lia.
      specialize (H Hk'); lia.
  - intros [H1 H2] [|[|k]] Hk; [lia| |].
    + cbn [firstn depth]; lia.
    + cbn [length] in Hk.
      assert (Hk' : 1 <= S k <= length rest) by lia.
      specialize (H2 (S k) Hk').
      change (firstn (S (S k)) (c :: rest)) with (c :: firstn (S k) rest).
      cbn [depth]; lia.
Qed.

Section Scan.

Variable value : Type.
Variable json_loads : str -> str + value.

Lemma extract_json_unfold (s : str) :
  extract_json json_loads s =
  match find ["{"%char] s with
  | None => throw NotFound
  | Some start => scan json_loads s start start 0 (skipn start s)
  end.
Proof. reflexivity. Qed.

(** Inside an open object the counter is at least one, and a properly
    nested stretch of text leaves it where it was without bringing it to
    zero: the scan runs through it. *)
Lemma scan_nested (s : str) (start : nat) (body : str) :
  nested body ->
  forall (i : nat) (counter : Z) (rest : str),
    (1 <= counter)%Z ->
    scan json_loads s start i counter (body ++ rest) =
    scan json_loads s start (i + length body) counter rest.
Proof.
  induction 1 as [|c l Hopen Hclose Hl IH|l1 l2 H1 IH1 H2 IH2];
    intros i counter rest Hc.
  - simpl; now rewrite Nat.add_0_r.
  - apply Ascii.eqb_neq in Hopen, Hclose.
    simpl; rewrite Hopen, Hclose, IH by assumption.
    f_equal; lia.
  - cbn [app scan]; rewrite Ascii.eqb_refl.
    rewrite <- app_assoc, IH1 by lia.
    cbn [app scan].
    replace (Ascii.eqb "}" "{") with false by reflexivity.
    rewrite Ascii.eqb_refl; cbv zeta.
    replace (counter + 1 - 1)%Z with counter by lia.
    destruct (Z.eqb_spec counter 0) as [E|_]; [lia|].
    rewrite IH2 by assumption.
    f_equal; rewrite length_cons, length_app, length_cons; lia.
Qed.

(** The scan raises nothing but [Incomplete] or what [json.loads] raises. *)
Lemma scan_not_NotFound (s : str) (start : nat) (rest : str) :
  forall i counter,
    scan json_loads s start i counter rest <> throw NotFound.
Proof.
  induction rest as [|c rest IH]; intros i counter; simpl.
  - discriminate.
  - destruct (Ascii.eqb c "{"); [apply IH|].
    destruct (Ascii.eqb c "}"); [|apply IH].
    destruct (counter - 1 =? 0)%Z; [|apply IH].
    unfold loads; destruct (json_loads _); discriminate.
Qed.

(** With at least one object open, the scan ends in [Incomplete] exactly
    when the depth never comes back to zero. *)
Lemma scan_Incomplete_iff (s : str) (start : nat) (rest : str) :
  forall i counter,
    (1 <= counter)%Z ->
    scan json_loads s start i counter rest = throw Incomplete <->
    (forall k, 1 <= k <= length rest ->
               (counter + depth (firstn k rest))%Z <> 0%Z).
Proof.
  induction rest as [|c rest IH]; intros i counter Hc.
  - simpl; split; [intros _ k Hk; lia|reflexivity].
  - rewrite never_zero_cons; cbn [scan]; unfold delta.
    destruct (Ascii.eqb c "{") eqn:Eo.
    + rewrite IH by lia.
      split; [intros H; split; [lia|exact H]|intros [_ H]; exact H].
    + destruct (Ascii.eqb c "}") eqn:Ec; cbv zeta.
      * replace (counter + -1)%Z with (counter - 1)%Z by lia.
        destruct (Z.eqb_spec (counter - 1) 0) as [E|E].
        -- split; [|intros [H _]; lia].
           unfold loads; destruct (json_loads _); discriminate.
        -- rewrite IH by lia.
           split; [intros H; split; [lia|exact H]|intros [_ H]; exact H].
      * replace (counter + 0)%Z with counter by lia.
        rewrite IH by lia.
        split; [intros H; split; [lia|exact H]|intros [_ H]; exact H].
Qed.

End Scan.

Import Json PyFacts.

Section Claims.

Variable value : Type.
Variable json_loads : str -> str + value.

(** C1. When the text holds, at its first ["{"], an object whose braces are
    properly nested, [extract_json] returns the parse of exactly that
    object: the text before the first ["{"] and everything after the
    matching ["}"] play no part, and braces nested inside the object do not
    end it early. *)
Theorem C1_extract_json_returns_first_balanced_object
    (pre body post : str) :
  ~ In "{"%char pre ->
  nested body ->
  extract_json json_loads (pre ++ "{"%char :: body ++ "}"%char :: post) =
  loads json_loads ("{"%char :: body ++ ["}"%char]).
Proof.
  intros Hpre Hbody.
  rewrite extract_json_unfold, find_char_app by assumption.
  rewrite skipn_app, skipn_all, Nat.sub_diag; cbn [skipn app scan].
  rewrite Ascii.eqb_refl, scan_nested by (assumption || lia).
  cbn [scan].
  replace (Ascii.eqb "}" "{") with false by reflexivity.
  rewrite Ascii.eqb_refl; cbv zeta.
  replace (0 + 1 - 1 =? 0)%Z with true by reflexivity.
  f_equal.
  set (blk := "{"%char :: body ++ ["}"%char]).
  replace (pre ++ "{"%char :: body ++ "}"%char :: post)
    with (pre ++ blk ++ post)
    by (unfold blk; simpl; now rewrite <- app_assoc).
  replace (S (length pre) + length body + 1)
    with (length pre + length blk)
    by (unfold blk; rewrite length_cons, length_app; simpl; lia).
  apply slice_middle.
Qed.

(** C5. [extract_json] raises the "No JSON object found" error exactly when
    the text has no ["{"], and the "No complete JSON object found" error
    exactly when, from the first ["{"] on, the brace depth never comes back
    to zero; in both cases whatever [json.loads] would do, since nothing is
    handed to it. *)
Theorem C5_extract_json_errors (s : str) :
  (extract_json json_loads s = throw NotFound <-> ~ In "{"%char s) /\
  (extract_json json_loads s = throw Incomplete <->
   exists pre rest,
     s = pre ++ "{"%char :: rest /\ ~ In "{"%char pre /\
     forall k, 1 <= k <= length ("{"%char :: rest) ->
               depth (firstn k ("{"%char :: rest)) <> 0%Z).
Proof.
  rewrite extract_json_unfold; split.
  - destruct (find ["{"%char] s) as [start|] eqn:F.
    + split; [intros H; now apply scan_not_NotFound in H|].
      intros H; apply find_char_none in H; congruence.
    + split; [intros _; now apply find_char_none|reflexivity].
  - destruct (find ["{"%char] s) as [start|] eqn:F.
    + destruct (find_char_some _ _ _ F) as (pre & rest & -> & Hpre & ->).
      rewrite skipn_app, skipn_all, Nat.sub_diag; cbn [skipn app scan].
      rewrite Ascii.eqb_refl, scan_Incomplete_iff by lia.
      split.
      * intros H; exists pre, rest; repeat split; try assumption.
        apply never_zero_cons with (counter := 0%Z); split; [discriminate|].
        exact H.
      * intros (pre' & rest' & E & Hpre' & H).
        assert (F' := find_char_app "{"%char pre' rest' Hpre').
        rewrite <- E, F in F'; injection F' as Elen.
        assert (Epre : pre = pre').
        { apply (f_equal (firstn (length pre))) in E.
          rewrite firstn_app, firstn_all, Nat.sub_diag in E; simpl in E.
          rewrite app_nil_r, Elen in E.
          rewrite firstn_app, firstn_all, Nat.sub_diag in E; simpl in E.
          now rewrite app_nil_r in E. }
        subst pre'; apply app_inv_head in E; injection E as <-.
        apply (never_zero_cons "{"%char rest 0) in H; apply H.
    + split; [discriminate|].
      intros (pre & rest & -> & Hpre & _).
      rewrite find_char_app in F by assumption; discriminate.
Qed.

End Claims.

(** Braces are counted as characters, also inside string values: a ["}"]
    in a string closes the block there. *)
Example brace_in_a_string_closes_the_block :
  extract_json (fun s : str => inr s) (quoted "{'a': '}'} rest") =
  ok (quoted "{'a': '}").
Proof. reflexivity. Qed.

(** The example of the specification: text before the object and after it
    is dropped, and the inner object does not end the outer one. *)
Lemma C1_witness :
  extract_json (fun s : str => inr s)
               (quoted "noise {'a': {'b': 1}} trailing") =
  ok (quoted "{'a': {'b': 1}}").
Proof.
  refine (C1_extract_json_returns_first_balanced_object
            str (fun s : str => inr s)
            (lit "noise ") (quoted "'a': {'b': 1}") (lit " trailing") _ _).
  - vm_compute; intuition discriminate.
  - change (quoted "'a': {'b': 1}")
      with (quoted "'a': " ++ "{"%char :: quoted "'b': 1" ++ "}"%char :: []).
    repeat (apply nested_char; [discriminate|discriminate|]).
    apply nested_braces; [|apply nested_nil].
    repeat (apply nested_char; [discriminate|discriminate|]).
    apply nested_nil.
Defined.

(** The example of the specification: an object that is opened and not
    closed is reported as incomplete, whatever the parser. *)
Lemma C5_witness :
  extract_json (fun s : str => inr s) (quoted "{'a': 1") = throw Incomplete /\
  extract_json (fun s : str => inr s) (lit "no braces here") = throw NotFound.
Proof.
  split.
  - apply (proj2 (C5_extract_json_errors str (fun s : str => inr s)
                    (quoted "{'a': 1"))).
    exists [], (quoted "'a': 1"); split; [reflexivity|].
    split; [intros []|].
    intros k Hk.
    do 8 (destruct k as [|k]; [vm_compute; try lia; discriminate|]).
    vm_compute in Hk; lia.
  - apply (proj1 (C5_extract_json_errors str (fun s : str => inr s)
                    (lit "no braces here"))).
    vm_compute; intuition discriminate.
Defined.

End JsonFacts.

(* ================================================================== *)
(** * Properties of the agent loop *)
(* ================================================================== *)

Module AgentFacts.

Import Agent PyFacts.

Lemma rbind_assoc {A B C} (r : result A) (f : A -> result B)
    (g : B -> result C) :
  rbind r (fun a => rbind (f a) g) = rbind (rbind r f) g.
Proof. destruct r; reflexivity. Qed.

Lemma FINAL_ANSWER_nonempty : FINAL_ANSWER <> [].
Proof. discriminate. Qed.

Lemma ACTION_nonempty : ACTION <> [].
Proof. discriminate. Qed.

Lemma ACTION_INPUT_nonempty : ACTION_INPUT <> [].
Proof. discriminate. Qed.

Lemma NL_nonempty : NL <> [].
Proof. discriminate. Qed.

(** The text that follows the first occurrence of a marker, up to the next
    occurrence, and its first line, as lines 184, 189 and 191 take them. *)
Lemma marker_line (marker msg : str) :
  marker <> [] ->
  (parts <- split marker msg ;;;
   after <- item parts 1 ;;;
   lines <- split NL after ;;;
   first <- item lines 0 ;;;
   ok (strip first)) =
  match find marker msg with
  | None => throw IndexError
  | Some n =>
      ok (strip (before NL (before marker (skipn (n + length marker) msg))))
  end.
Proof.
  intros Hm.
  rewrite (rbind_assoc (split marker msg) (fun parts => item parts 1)).
  rewrite split_item_1 by assumption.
  destruct (find marker msg) as [n|]; [|reflexivity].
  cbn [rbind ok].
  set (after := before marker _).
  rewrite (rbind_assoc (split NL after) (fun lines => item lines 0)).
  rewrite split_item_0 by apply NL_nonempty.
  reflexivity.
Qed.

Lemma action_of_eq (msg : str) :
  action_of msg =
  match find ACTION msg with
  | None => throw IndexError
  | Some n =>
      ok (strip (before NL (before ACTION (skipn (n + length ACTION) msg))))
  end.
Proof. apply marker_line, ACTION_nonempty. Qed.

Lemma action_input_of_eq (msg : str) :
  action_input_of msg =
  match find ACTION_INPUT msg with
  | None => throw IndexError
  | Some n =>
      ok (strip (before NL (before ACTION_INPUT
                              (skipn (n + length ACTION_INPUT) msg))))
  end.
Proof. apply marker_line, ACTION_INPUT_nonempty. Qed.

(** The markers neither start nor end with white space, so stripping the
    completion does not change which markers it contains. *)
Lemma contains_FINAL_ANSWER_strip (raw : str) :
  contains FINAL_ANSWER (strip raw) = contains FINAL_ANSWER raw.
Proof.
  apply contains_strip; do 2 eexists; (split; [reflexivity|reflexivity]).
Qed.

Lemma contains_ACTION_strip (raw : str) :
  contains ACTION (strip raw) = contains ACTION raw.
Proof.
  apply contains_strip; do 2 eexists; (split; [reflexivity|reflexivity]).
Qed.

Lemma contains_ACTION_INPUT_strip (raw : str) :
  contains ACTION_INPUT (strip raw) = contains ACTION_INPUT raw.
Proof.
  apply contains_strip; do 2 eexists; (split; [reflexivity|reflexivity]).
Qed.

Lemma str_eqb_eq (a b : str) : str_eqb a b = true <-> a = b.
Proof.
  revert b; induction a as [|x a IH]; intros [|y b]; simpl;
    try (split; [discriminate|discriminate]); [tauto|].
  rewrite andb_true_iff, Ascii.eqb_eq, IH.
  split; [intros [-> ->]; reflexivity|intros [= -> ->]; now split].
Qed.

Section Loop.

Set Default Proof Using "Type".

Variable value : Type.
Variable json_loads : str -> str + value.
Variable get_current_time get_weather : tool value.
Variable prompt : str.
Variable get_chat_completions : str -> result response_body.

Local Abbreviation state := (Agent.state value).
Local Abbreviation tools := (tool_maps get_current_time get_weather).
Local Abbreviation action_branch :=
  (Agent.action_branch json_loads get_current_time get_weather).
Local Abbreviation classify :=
  (Agent.classify json_loads get_current_time get_weather).
Local Abbreviation iteration :=
  (Agent.iteration json_loads get_current_time get_weather
                   get_chat_completions).
Local Abbreviation while_loop :=
  (Agent.while_loop json_loads get_current_time get_weather
                    get_chat_completions).
Local Abbreviation main :=
  (Agent.main json_loads get_current_time get_weather prompt
              get_chat_completions).

(** ** The statements of [main] in direct style *)

(** The state in which the final-answer branch ends when the marker is
    found at [n]. *)
Local Abbreviation answer_at msg n :=
  (strip (before FINAL_ANSWER (skipn (n + length FINAL_ANSWER) msg))).

Lemma final_answer_branch_eq (msg : str) (st : state) :
  final_answer_branch msg st =
  match find FINAL_ANSWER msg with
  | None => (throw IndexError, set_final_answer_found st)
  | Some n =>
      let st1 := set_final_answer (answer_at msg n)
                   (set_final_answer_found st) in
      (ok tt,
       record (LogDebug (scratch_pad st1))
              (record (LogInfo (answer_at msg n)) st1))
  end.
Proof.
  unfold final_answer_branch, bind, lift, modify, gets, emit, modify.
  pose proof (split_item_1 FINAL_ANSWER msg FINAL_ANSWER_nonempty) as H.
  unfold rbind in H.
  destruct (split FINAL_ANSWER msg) as [e|parts].
  - destruct (find FINAL_ANSWER msg); [discriminate|].
    now injection H as ->.
  - destruct (find FINAL_ANSWER msg) as [n|]; rewrite H; reflexivity.
Qed.

Lemma action_branch_eq (msg : str) (st : state) :
  action_branch msg st =
  match action_of msg with
  | inl e => (inl e, st)
  | inr action =>
    match action_input_of msg with
    | inl e => (inl e, st)
    | inr action_input =>
      match dict_get tools action with
      | None =>
          (ok (Break UnknownTool),
           record (LogError (lit "Tool not found. Exiting!")) st)
      | Some tool_fn =>
        let st1 := record (ExtractJson action_input) st in
        match Json.extract_json json_loads action_input with
        | inl e => (inl e, st1)
        | inr tool_arguments =>
          let st2 := record (ToolCall action tool_arguments) st1 in
          match tool_fn tool_arguments with
          | inl e => (inl e, st2)
          | inr tool_response =>
              (ok Next,
               record (LogDebug (OBSERVATION ++ tool_response))
                 (append_scratch_pad (NL ++ OBSERVATION ++ tool_response)
                                     st2))
          end
        end
      end
    end
  end.
Proof.
  unfold Agent.action_branch, bind, lift, emit, modify, ret.
  destruct (action_of msg); [reflexivity|].
  destruct (action_input_of msg); [reflexivity|].
  destruct (dict_get _ _); [|reflexivity].
  destruct (Json.extract_json _ _); [reflexivity|].
  destruct (t _); reflexivity.
Qed.

Lemma classify_eq (msg : str) (st : state) :
  classify msg st =
  match (if contains FINAL_ANSWER msg
         then final_answer_branch msg st
         else (ok tt, st)) with
  | (inl e, st') => (inl e, st')
  | (inr _, st') =>
      if contains ACTION_INPUT msg
      then action_branch msg st'
      else (ok Next, st')
  end.
Proof.
  unfold Agent.classify, bind, ret.
  destruct (contains FINAL_ANSWER msg).
  - destruct (final_answer_branch msg st) as [[e|u] st']; [reflexivity|].
    destruct (contains ACTION_INPUT msg); reflexivity.
  - cbv beta iota delta [ok].
    destruct (contains ACTION_INPUT msg); reflexivity.
Qed.

Lemma iteration_eq (st : state) :
  iteration st =
  match get_chat_completions (scratch_pad st) with
  | inl e => (inl e, requested st)
  | inr llm_response =>
    if 10 <? S (current_iteration st) then
      let st1 := record (LogError (lit "Max iterations reached. Exiting"))
                        (requested st) in
      (ok (Break MaxIterations), record (Print (scratch_pad st1)) st1)
    else
      match content llm_response with
      | inl e => (inl e, requested st)
      | inr raw => classify (strip raw) (appended (strip raw) st)
      end
  end.
Proof.
  unfold Agent.iteration, bind, lift, emit, modify, gets, ret, ok.
  cbv beta iota.
  destruct (get_chat_completions _); [reflexivity|].
  cbn [current_iteration record incr_iteration].
  destruct (10 <? S (current_iteration st)); [reflexivity|].
  destruct (content _); reflexivity.
Qed.

(** ** What each part of the body leaves untouched *)

Lemma requests_app (a b : list (event value)) :
  requests (a ++ b) = requests a + requests b.
Proof.
  induction a as [|[] a IH]; simpl; rewrite ?IH; reflexivity.
Qed.

Lemma extends_refl (s : str) : extends s s.
Proof. exists []; now rewrite app_nil_r. Qed.

Lemma extends_app (s t : str) : extends s (s ++ t).
Proof. now exists t. Qed.

Lemma extends_trans (a b c : str) : extends a b -> extends b c -> extends a c.
Proof.
  intros [t ->] [u ->]; exists (t ++ u); now rewrite app_assoc.
Qed.

(** The events a statement adds to the trace. *)
Ltac added :=
  cbn [trace record append_scratch_pad set_final_answer
       set_final_answer_found incr_iteration requested appended];
  rewrite <- ?app_assoc;
  first [ reflexivity | symmetry; apply app_nil_r ].

(** The final-answer branch changes neither the transcript nor the
    counter; it issues no request and dispatches nothing. *)
Lemma final_answer_branch_frame (msg : str) (st : state) :
  let st' := snd (final_answer_branch msg st) in
  scratch_pad st' = scratch_pad st /\
  current_iteration st' = current_iteration st /\
  exists new,
    trace st' = trace st ++ new /\
    requests new = 0 /\ no_dispatch new = true.
Proof.
  rewrite final_answer_branch_eq.
  destruct (find FINAL_ANSWER msg); cbn [snd]; repeat split;
    eexists; (split; [added|split; reflexivity]).
Qed.

(** The action branch only adds to the transcript; it changes neither the
    counter nor the recorded answer, and issues no request. *)
Lemma action_branch_frame (msg : str) (st : state) :
  let st' := snd (action_branch msg st) in
  extends (scratch_pad st) (scratch_pad st') /\
  current_iteration st' = current_iteration st /\
  final_answer st' = final_answer st /\
  final_answer_found st' = final_answer_found st /\
  exists new, trace st' = trace st ++ new /\ requests new = 0.
Proof.
  rewrite action_branch_eq.
  destruct (action_of msg) as [e|action];
    [|destruct (action_input_of msg) as [e|input];
      [|destruct (dict_get tools action) as [f|];
        [cbv zeta; destruct (Json.extract_json json_loads input) as [e|a];
         [|destruct (f a) as [e|obs]]|]]];
    cbn [snd]; repeat split;
    try apply extends_refl; try apply extends_app;
    eexists; (split; [added|reflexivity]).
Qed.

(** The two tests only add to the transcript, leave the counter alone and
    issue no request. *)
Lemma classify_frame (msg : str) (st : state) :
  let st' := snd (classify msg st) in
  extends (scratch_pad st) (scratch_pad st') /\
  current_iteration st' = current_iteration st /\
  exists new, trace st' = trace st ++ new /\ requests new = 0.
Proof.
  rewrite classify_eq.
  assert (Hfa : exists r st1,
    (if contains FINAL_ANSWER msg
     then final_answer_branch msg st
     else (ok tt, st)) = (r, st1) /\
    scratch_pad st1 = scratch_pad st /\
    current_iteration st1 = current_iteration st /\
    exists new, trace st1 = trace st ++ new /\ requests new = 0).
  { destruct (contains FINAL_ANSWER msg).
    - destruct (final_answer_branch_frame msg st)
        as (Hp & Hi & new & Ht & Hr & _).
      destruct (final_answer_branch msg st) as [r st1].
      exists r, st1; repeat split; try assumption.
      now exists new.
    - exists (ok tt), st; repeat split.
      exists []; split; [added|reflexivity]. }
  destruct Hfa as (r & st1 & -> & Hp & Hi & new & Ht & Hr).
  destruct r as [e|u].
  { cbn [snd]; rewrite Hp, Hi, Ht; repeat split;
      [apply extends_refl|now exists new]. }
  cbv beta iota zeta.
  destruct (contains ACTION_INPUT msg).
  - destruct (action_branch_frame msg st1)
      as (Hp' & Hi' & _ & _ & new' & Ht' & Hr').
    rewrite Hi', Ht', Hi, Ht, <- Hp; repeat split; [exact Hp'|].
    exists (new ++ new'); split.
    + now rewrite <- app_assoc.
    + rewrite requests_app; lia.
  - cbn [snd]; rewrite Hp, Hi, Ht; repeat split;
      [apply extends_refl|now exists new].
Qed.

(** One pass through the body issues exactly one request, first of all,
    advances the counter by one and only adds to the transcript. *)
Lemma iteration_frame (st : state) :
  let st' := snd (iteration st) in
  extends (scratch_pad st) (scratch_pad st') /\
  current_iteration st' = S (current_iteration st) /\
  exists new,
    trace st' = trace st ++ Request (scratch_pad st) :: new /\
    requests new = 0.
Proof.
  rewrite iteration_eq.
  destruct (get_chat_completions _) as [e|body].
  { cbn [snd]; repeat split; [apply extends_refl|].
    exists []; split; [added|reflexivity]. }
  destruct (10 <? S (current_iteration st)).
  { cbn [snd]; repeat split; [apply extends_refl|].
    eexists; split; [added|reflexivity]. }
  destruct (content body) as [e|raw].
  { cbn [snd]; repeat split; [apply extends_refl|].
    exists []; split; [added|reflexivity]. }
  destruct (classify_frame (strip raw) (appended (strip raw) st))
    as (Hp & Hi & new & Ht & Hr).
  cbv zeta; rewrite Hi, Ht; repeat split.
  - apply extends_trans with (scratch_pad (appended (strip raw) st));
      [apply extends_app|exact Hp].
  - exists (LogDebug (strip raw) :: new); split; [|exact Hr].
    cbn [trace appended append_scratch_pad record requested].
    now rewrite <- !app_assoc.
Qed.

(** ** The loop *)

Lemma while_loop_finished (fuel : nat) (st : state) :
  final_answer_found st = true -> while_loop fuel st = (Finished, st).
Proof. intros H; destruct fuel; simpl; now rewrite H. Qed.

Lemma while_loop_step (fuel : nat) (st : state) :
  final_answer_found st = false ->
  while_loop (S fuel) st =
  match iteration st with
  | (inl e, st') => (Raised e, st')
  | (inr (Break r), st') => (Aborted r, st')
  | (inr Next, st') => while_loop fuel st'
  end.
Proof. intros H; simpl; now rewrite H. Qed.

(** Once the counter has reached the cap, the body does not come back to
    the loop test. *)
Lemma iteration_at_cap (st : state) :
  10 <= current_iteration st -> fst (iteration st) <> ok Next.
Proof.
  intros H; rewrite iteration_eq.
  destruct (get_chat_completions _); [discriminate|].
  destruct (Nat.ltb_spec 10 (S (current_iteration st))); [discriminate|lia].
Qed.

(** [main] returns: eleven passes through the body are always enough. *)
Lemma while_loop_terminates (fuel : nat) :
  forall st, 10 - current_iteration st < fuel ->
             fst (while_loop fuel st) <> OutOfFuel.
Proof.
  induction fuel as [|fuel IH]; intros st Hfuel; [lia|].
  destruct (final_answer_found st) eqn:F.
  - rewrite while_loop_finished by assumption; discriminate.
  - rewrite while_loop_step by assumption.
    pose proof (iteration_frame st) as (_ & Hi & _).
    pose proof (iteration_at_cap st) as Hcap.
    destruct (iteration st) as [[e|[|r]] st']; cbn [fst snd] in *;
      try discriminate.
    apply IH.
    destruct (Nat.le_gt_cases 10 (current_iteration st)) as [H|H];
      [exfalso; now apply Hcap|lia].
Qed.

Lemma main_terminates (fuel : nat) (a : args) :
  11 <= fuel -> fst (main fuel a) <> OutOfFuel.
Proof. intros H; apply while_loop_terminates; simpl; lia. Qed.

(** C8. The transcript only grows: when the completion is added, when an
    observation is added, over one pass through the loop body and over the
    whole run, the earlier transcript is a prefix of the later one. *)
Theorem C8_transcript_is_append_only :
  (forall msg (st : state),
     extends (scratch_pad st) (scratch_pad (appended msg st))) /\
  (forall msg (st : state),
     extends (scratch_pad st) (scratch_pad (snd (action_branch msg st)))) /\
  (forall st : state,
     extends (scratch_pad st) (scratch_pad (snd (iteration st)))) /\
  (forall fuel (st : state),
     extends (scratch_pad st) (scratch_pad (snd (while_loop fuel st)))) /\
  (forall fuel a,
     extends (prompt ++ NL ++ lit "Question: " ++ question a)
             (scratch_pad (snd (main fuel a)))).
Proof.
  assert (Hloop : forall fuel (st : state),
    extends (scratch_pad st) (scratch_pad (snd (while_loop fuel st)))).
  { induction fuel as [|fuel IH]; intros st.
    - simpl; destruct (final_answer_found st); apply extends_refl.
    - destruct (final_answer_found st) eqn:F.
      + rewrite while_loop_finished by assumption; apply extends_refl.
      + rewrite while_loop_step by assumption.
        pose proof (iteration_frame st) as (Hp & _).
        destruct (iteration st) as [[e|[|r]] st']; cbn [snd] in *;
          try exact Hp.
        apply extends_trans with (scratch_pad st'); [exact Hp|apply IH]. }
  repeat split.
  - intros msg st; apply extends_app.
  - intros msg st; apply action_branch_frame.
  - intros st; apply iteration_frame.
  - exact Hloop.
  - intros fuel a; apply (Hloop fuel (initial_state prompt a)).
Qed.

(** ** The two tests on a completion *)

(** Within the cap, a completion that arrives is stripped, added to the
    transcript and classified. *)
Lemma iteration_classifies (st : state) (raw : str) :
  current_iteration st < 10 ->
  get_chat_completions (scratch_pad st) = ok (Body (ok raw)) ->
  iteration st = classify (strip raw) (appended (strip raw) st).
Proof.
  intros Hi Hllm; rewrite iteration_eq, Hllm; cbv beta iota delta [ok].
  destruct (Nat.ltb_spec 10 (S (current_iteration st))); [lia|reflexivity].
Qed.

(** The test for the final answer never raises; it sets the flag and the
    answer when the marker is there and changes nothing otherwise. *)
Lemma final_answer_test (msg : str) (st : state) :
  exists st1 new,
    (if contains FINAL_ANSWER msg
     then final_answer_branch msg st
     else (ok tt, st)) = (ok tt, st1) /\
    scratch_pad st1 = scratch_pad st /\
    current_iteration st1 = current_iteration st /\
    trace st1 = trace st ++ new /\
    requests new = 0 /\ no_dispatch new = true /\
    final_answer_found st1 =
      contains FINAL_ANSWER msg || final_answer_found st /\
    final_answer st1 =
      (if contains FINAL_ANSWER msg then answer_of msg else final_answer st) /\
    (contains FINAL_ANSWER msg = true ->
     exists answer, answer_of msg = Some answer /\ In (LogInfo answer) new).
Proof.
  unfold contains, answer_of; rewrite final_answer_branch_eq.
  destruct (find FINAL_ANSWER msg) as [n|].
  - cbv zeta; eexists.
    exists [LogInfo (answer_at msg n);
            LogDebug (scratch_pad
                        (set_final_answer (answer_at msg n)
                                          (set_final_answer_found st)))].
    split; [reflexivity|].
    split; [reflexivity|].
    split; [reflexivity|].
    split; [added|].
    split; [reflexivity|].
    split; [reflexivity|].
    split; [reflexivity|].
    split; [reflexivity|].
    intros _; eexists; split; [reflexivity|now left].
  - exists st, [].
    split; [reflexivity|].
    split; [reflexivity|].
    split; [reflexivity|].
    split; [added|].
    split; [reflexivity|].
    split; [reflexivity|].
    split; [reflexivity|].
    split; [reflexivity|discriminate].
Qed.

Lemma classify_pass_through (msg : str) (st : state) :
  contains FINAL_ANSWER msg = false ->
  contains ACTION_INPUT msg = false ->
  classify msg st = (ok Next, st).
Proof. intros Hf Ha; now rewrite classify_eq, Hf, Ha. Qed.

(** Within the cap, a completion with neither marker is added to the
    transcript and the body runs off its end. *)
Lemma iteration_pass_through (st : state) (raw : str) :
  current_iteration st < 10 ->
  get_chat_completions (scratch_pad st) = ok (Body (ok raw)) ->
  contains FINAL_ANSWER raw = false ->
  contains ACTION_INPUT raw = false ->
  iteration st = (ok Next, appended (strip raw) st).
Proof.
  intros Hi Hllm Hf Ha.
  rewrite (iteration_classifies st raw Hi Hllm).
  apply classify_pass_through.
  - now rewrite contains_FINAL_ANSWER_strip.
  - now rewrite contains_ACTION_INPUT_strip.
Qed.

(** C7 (as amended).  Within the cap, the completion is added to the
    transcript, after a newline and without its surrounding white space,
    before it is classified, so whatever the classification does the
    transcript goes on with it.  In particular a completion with neither
    ["Final Answer:"] nor ["Action Input:"] is added in that form, nothing
    is dispatched, the flag is left as it was and the loop goes on to the
    next iteration. *)
Theorem C7_stripped_completion_is_appended_first (st : state) (raw : str) :
  current_iteration st < 10 ->
  get_chat_completions (scratch_pad st) = ok (Body (ok raw)) ->
  let msg := strip raw in
  let st' := snd (iteration st) in
  iteration st = classify msg (appended msg st) /\
  scratch_pad (appended msg st) = scratch_pad st ++ NL ++ msg /\
  extends (scratch_pad st ++ NL ++ msg) (scratch_pad st') /\
  (contains FINAL_ANSWER raw = false ->
   contains ACTION_INPUT raw = false ->
   fst (iteration st) = ok Next /\
   scratch_pad st' = scratch_pad st ++ NL ++ msg /\
   final_answer_found st' = final_answer_found st /\
   trace st' = trace st ++ [Request (scratch_pad st); LogDebug msg] /\
   forall fuel,
     final_answer_found st = false ->
     while_loop (S fuel) st = while_loop fuel st').
Proof.
  intros Hi Hllm msg st'.
  pose proof (iteration_classifies st raw Hi Hllm) as E; fold msg in E.
  split; [exact E|].
  split; [reflexivity|].
  split; [subst st'; rewrite E; apply classify_frame|].
  intros Hf Ha.
  pose proof (iteration_pass_through st raw Hi Hllm Hf Ha) as P.
  fold msg in P; subst st'; rewrite P; cbn [fst snd].
  split; [reflexivity|].
  split; [reflexivity|].
  split; [reflexivity|].
  split; [added|].
  intros fuel F; rewrite while_loop_step, P by assumption; reflexivity.
Qed.

(** After the test for the final answer, which cannot fail, the completion
    is tested for an action whether or not an answer was found. *)
Lemma classify_after_answer_test (msg : str) (st : state) :
  exists st1 new,
    classify msg st =
      (if contains ACTION_INPUT msg
       then action_branch msg st1
       else (ok Next, st1)) /\
    scratch_pad st1 = scratch_pad st /\
    trace st1 = trace st ++ new /\
    no_dispatch new = true /\
    final_answer_found st1 =
      contains FINAL_ANSWER msg || final_answer_found st /\
    final_answer st1 =
      (if contains FINAL_ANSWER msg then answer_of msg else final_answer st) /\
    (contains FINAL_ANSWER msg = true ->
     exists answer, answer_of msg = Some answer /\ In (LogInfo answer) new).
Proof.
  destruct (final_answer_test msg st)
    as (st1 & new & E & Hp & _ & Ht & _ & Hd & Hf & Ha & Hlog).
  exists st1, new; rewrite classify_eq, E.
  repeat (split; [assumption || reflexivity|]); assumption.
Qed.

(** [d.get(key)] is [None] exactly when [key] is not a key of [d]. *)
Lemma dict_get_None (d : list (str * tool value)) (key : str) :
  dict_get d key = None <-> ~ In key (map fst d).
Proof.
  induction d as [|[k v] d IH]; simpl.
  { split; [intros _ []|reflexivity]. }
  destruct (str_eqb k key) eqn:E.
  - apply str_eqb_eq in E; subst k.
    split; [discriminate|intros H; exfalso; apply H; now left].
  - rewrite IH; split.
    + intros H [Hk|Hin]; [|exact (H Hin)].
      subst k; assert (T : str_eqb key key = true) by now apply str_eqb_eq.
      congruence.
    + intros H Hin; apply H; now right.
Qed.

Lemma contains_true_find (sub s : str) :
  contains sub s = true -> exists n, find sub s = Some n.
Proof.
  unfold contains; destruct (find sub s) as [n|]; [now exists n|discriminate].
Qed.

(** Where the action-input marker occurs, line 191 finds its text. *)
Lemma action_input_of_ok (msg : str) :
  contains ACTION_INPUT msg = true ->
  exists input, action_input_of msg = ok input.
Proof.
  intros H; apply contains_true_find in H as [n H].
  rewrite action_input_of_eq, H; eauto.
Qed.

(** Within the cap, a completion with the action-input marker reaches the
    action branch, with the transcript extended by the completion and with
    nothing dispatched so far. *)
Lemma iteration_reaches_action_branch (st : state) (raw : str) :
  current_iteration st < 10 ->
  get_chat_completions (scratch_pad st) = ok (Body (ok raw)) ->
  contains ACTION_INPUT raw = true ->
  exists st1 new,
    iteration st = action_branch (strip raw) st1 /\
    scratch_pad st1 = scratch_pad st ++ NL ++ strip raw /\
    trace st1 = trace st ++ new /\
    no_dispatch new = true /\
    final_answer_found st1 =
      contains FINAL_ANSWER raw || final_answer_found st /\
    (contains FINAL_ANSWER raw = true ->
     exists answer,
       answer_of (strip raw) = Some answer /\
       final_answer st1 = Some answer /\ In (LogInfo answer) new).
Proof.
  intros Hi Hllm Hai.
  rewrite (iteration_classifies st raw Hi Hllm).
  destruct (classify_after_answer_test (strip raw)
                                       (appended (strip raw) st))
    as (st1 & new & E & Hp & Ht & Hd & Hf & Ha & Hlog).
  rewrite contains_ACTION_INPUT_strip, Hai in E.
  rewrite contains_FINAL_ANSWER_strip in Hf, Ha, Hlog.
  exists st1, (Request (scratch_pad st) :: LogDebug (strip raw) :: new).
  split; [exact E|].
  split; [exact Hp|].
  split.
  { rewrite Ht; cbn [trace appended append_scratch_pad record requested].
    now rewrite <- !app_assoc. }
  split; [exact Hd|].
  split; [exact Hf|].
  intros Hfa; destruct (Hlog Hfa) as (answer & Hans & Hin).
  exists answer; rewrite Ha, Hfa.
  split; [exact Hans|].
  split; [exact Hans|now right; right].
Qed.

(** An exception raised in the body ends the run with that exception. *)
Lemma while_loop_raises (fuel : nat) (st : state) (e : exn) :
  final_answer_found st = false ->
  fst (iteration st) = inl e ->
  while_loop (S fuel) st = (Raised e, snd (iteration st)).
Proof.
  intros F H; rewrite while_loop_step by assumption.
  destruct (iteration st) as [r st']; cbn [fst snd] in *; now subst r.
Qed.

(** A [break] in the body ends the run. *)
Lemma while_loop_breaks (fuel : nat) (st : state) (r : reason) :
  final_answer_found st = false ->
  fst (iteration st) = ok (Break r) ->
  while_loop (S fuel) st = (Aborted r, snd (iteration st)).
Proof.
  intros F H; rewrite while_loop_step by assumption.
  destruct (iteration st) as [c st']; cbn [fst snd] in *; now subst c.
Qed.

(** C10. A completion that has ["Action Input:"] but no ["Action:"] makes
    line 189 index past the end of a one-element list: the body raises
    [IndexError] before anything is dispatched, nothing catches it, and the
    run ends with it. *)
Theorem C10_action_input_without_action_raises (st : state) (raw : str) :
  current_iteration st < 10 ->
  get_chat_completions (scratch_pad st) = ok (Body (ok raw)) ->
  contains ACTION_INPUT raw = true ->
  contains ACTION raw = false ->
  fst (iteration st) = throw IndexError /\
  (exists new,
     trace (snd (iteration st)) = trace st ++ new /\
     no_dispatch new = true) /\
  (final_answer_found st = false ->
   forall fuel, fst (while_loop (S fuel) st) = Raised IndexError).
Proof.
  intros Hi Hllm Hai Hact.
  destruct (iteration_reaches_action_branch st raw Hi Hllm Hai)
    as (st1 & new & E & _ & Ht & Hd & _).
  assert (R : iteration st = (throw IndexError, st1)).
  { rewrite E, action_branch_eq, action_of_eq.
    rewrite <- contains_ACTION_strip in Hact.
    apply contains_false_find in Hact; now rewrite Hact. }
  split; [now rewrite R|].
  split; [exists new; now rewrite R|].
  intros F fuel; rewrite (while_loop_raises fuel st IndexError F);
    now rewrite R.
Qed.

(** C4. When the action name of a completion is not a key of the registry,
    the body logs the error and breaks: the run ends as aborted for an
    unknown tool, [extract_json] is not applied, no tool function is called
    and nothing is raised. *)
Theorem C4_unknown_tool_aborts (st : state) (raw name : str) :
  current_iteration st < 10 ->
  get_chat_completions (scratch_pad st) = ok (Body (ok raw)) ->
  contains ACTION_INPUT raw = true ->
  action_of (strip raw) = ok name ->
  ~ In name (map fst tools) ->
  fst (iteration st) = ok (Break UnknownTool) /\
  (exists new,
     trace (snd (iteration st)) =
       trace st ++ new ++ [LogError (lit "Tool not found. Exiting!")] /\
     no_dispatch new = true) /\
  (final_answer_found st = false ->
   forall fuel, fst (while_loop (S fuel) st) = Aborted UnknownTool).
Proof.
  intros Hi Hllm Hai Hname Habsent.
  destruct (iteration_reaches_action_branch st raw Hi Hllm Hai)
    as (st1 & new & E & _ & Ht & Hd & _).
  destruct (action_input_of_ok (strip raw)) as [input Hinput];
    [now rewrite contains_ACTION_INPUT_strip|].
  apply dict_get_None in Habsent.
  assert (R : iteration st =
              (ok (Break UnknownTool),
               record (LogError (lit "Tool not found. Exiting!")) st1)).
  { rewrite E, action_branch_eq, Hname, Hinput.
    cbv beta iota delta [ok]; now rewrite Habsent. }
  split; [now rewrite R|].
  split.
  { exists new; rewrite R; cbn [snd trace record].
    now rewrite Ht, <- app_assoc. }
  intros F fuel; rewrite (while_loop_breaks fuel st UnknownTool F);
    now rewrite R.
Qed.

(** C9. When the action name is a key of the registry, [extract_json] is
    applied to the action input and the tool function is called with the
    mapping it returns; an exception raised by either is the result of the
    body as it is, and ends the run: the body makes one request whatever
    happens, so nothing is tried again. *)
Theorem C9_known_tool_is_called_and_errors_propagate
    (st : state) (raw name input : str) (tool_fn : tool value) :
  current_iteration st < 10 ->
  get_chat_completions (scratch_pad st) = ok (Body (ok raw)) ->
  contains ACTION_INPUT raw = true ->
  action_of (strip raw) = ok name ->
  action_input_of (strip raw) = ok input ->
  dict_get tools name = Some tool_fn ->
  let r := iteration st in
  match Json.extract_json json_loads input with
  | inl e =>
      fst r = inl e /\
      exists t, trace (snd r) = t ++ [ExtractJson input]
  | inr arguments =>
      match tool_fn arguments with
      | inl e =>
          fst r = inl e /\
          exists t,
            trace (snd r) = t ++ [ExtractJson input; ToolCall name arguments]
      | inr tool_response =>
          fst r = ok Next /\
          (exists t,
             trace (snd r) =
               t ++ [ExtractJson input; ToolCall name arguments;
                     LogDebug (OBSERVATION ++ tool_response)]) /\
          scratch_pad (snd r) =
            scratch_pad st ++ NL ++ strip raw ++
            NL ++ OBSERVATION ++ tool_response
      end
  end /\
  requests (trace (snd r)) = S (requests (trace st)) /\
  (forall e,
     fst r = inl e ->
     final_answer_found st = false ->
     forall fuel, while_loop (S fuel) st = (Raised e, snd r)).
Proof.
  intros Hi Hllm Hai Hname Hinput Htool r.
  destruct (iteration_reaches_action_branch st raw Hi Hllm Hai)
    as (st1 & new & E & Hp & Ht & Hd & _).
  assert (R : r = action_branch (strip raw) st1) by exact E.
  rewrite action_branch_eq, Hname, Hinput in R.
  cbv beta iota delta [ok] in R; rewrite Htool in R; cbv zeta in R.
  split; [|split].
  - destruct (Json.extract_json json_loads input) as [e|arguments].
    { rewrite R; split; [reflexivity|].
      now exists (trace st1). }
    destruct (tool_fn arguments) as [e|tool_response]; rewrite R.
    + split; [reflexivity|].
      exists (trace st1); cbn [snd trace record]; now rewrite <- app_assoc.
    + split; [reflexivity|].
      split.
      * exists (trace st1).
        cbn [snd trace record append_scratch_pad].
        now rewrite <- !app_assoc.
      * cbn [snd scratch_pad record append_scratch_pad].
        now rewrite Hp, <- !app_assoc.
  - pose proof (iteration_frame st) as (_ & _ & new' & Ht' & Hr').
    fold r in Ht'; rewrite Ht', requests_app; simpl; lia.
  - intros e He F fuel; now apply while_loop_raises.
Qed.

(** C2 (what the code does).  The test for ["Action Input:"] is a second
    [if], not an [elif]: when a completion has both markers and its action
    names a registered tool, the final answer is recorded and then
    [extract_json] and the tool function are called all the same. *)
Theorem C2_action_is_dispatched_after_final_answer
    (st : state) (raw name input : str) (tool_fn : tool value)
    (arguments : value) :
  current_iteration st < 10 ->
  get_chat_completions (scratch_pad st) = ok (Body (ok raw)) ->
  contains FINAL_ANSWER raw = true ->
  contains ACTION_INPUT raw = true ->
  action_of (strip raw) = ok name ->
  action_input_of (strip raw) = ok input ->
  dict_get tools name = Some tool_fn ->
  Json.extract_json json_loads input = ok arguments ->
  let st' := snd (iteration st) in
  final_answer_found st' = true /\
  (exists answer,
     final_answer st' = Some answer /\ In (LogInfo answer) (trace st')) /\
  In (ExtractJson input) (trace st') /\
  In (ToolCall name arguments) (trace st').
Proof.
  intros Hi Hllm Hfa Hai Hname Hinput Htool Hargs st'.
  destruct (iteration_reaches_action_branch st raw Hi Hllm Hai)
    as (st1 & new & E & _ & Ht & _ & Hf & Hans).
  destruct (Hans Hfa) as (answer & _ & Hanswer & Hlog).
  rewrite Hfa in Hf; cbn [orb] in Hf.
  assert (Hin : In (LogInfo answer) (trace st1))
    by (rewrite Ht; apply in_or_app; now right).
  subst st'; rewrite E, action_branch_eq, Hname, Hinput.
  cbv beta iota delta [ok]; rewrite Htool; cbv zeta.
  unfold ok in Hargs; rewrite Hargs.
  destruct (tool_fn arguments) as [e|tool_response];
    cbn [snd trace record append_scratch_pad final_answer_found final_answer].
  - split; [exact Hf|].
    split; [exists answer; split; [exact Hanswer|]|split];
      rewrite <- app_assoc; apply in_or_app; simpl; auto.
  - split; [exact Hf|].
    split; [exists answer; split; [exact Hanswer|]|split];
      rewrite <- !app_assoc; apply in_or_app; simpl; auto.
Qed.

(** C6 (as amended).  When the completion has ["Final Answer:"], the
    recorded (and logged) answer is the text between the first occurrence
    of the marker and its next occurrence, without surrounding white space;
    it is all the text after the marker when the marker does not occur
    again. *)
Theorem C6_final_answer_stops_at_next_marker (st : state) (raw : str) :
  current_iteration st < 10 ->
  get_chat_completions (scratch_pad st) = ok (Body (ok raw)) ->
  contains FINAL_ANSWER raw = true ->
  let msg := strip raw in
  let st' := snd (iteration st) in
  final_answer_found st' = true /\
  exists n,
    find FINAL_ANSWER msg = Some n /\
    let rest := skipn (n + length FINAL_ANSWER) msg in
    let answer := strip (before FINAL_ANSWER rest) in
    final_answer st' = Some answer /\
    In (LogInfo answer) (trace st') /\
    (contains FINAL_ANSWER rest = false -> answer = strip rest).
Proof.
  intros Hi Hllm Hfa msg st'.
  assert (Hmsg : contains FINAL_ANSWER msg = true)
    by (unfold msg; now rewrite contains_FINAL_ANSWER_strip).
  destruct (classify_after_answer_test msg (appended msg st))
    as (st1 & new & E & _ & Ht & _ & Hf & Ha & Hlog).
  rewrite Hmsg in Hf, Ha; cbn [orb] in Hf.
  destruct (Hlog Hmsg) as (answer & Hans & Hin).
  assert (Hst' : final_answer_found st' = true /\
                 final_answer st' = Some answer /\
                 In (LogInfo answer) (trace st')).
  { subst st'; rewrite (iteration_classifies st raw Hi Hllm); fold msg.
    rewrite E; destruct (contains ACTION_INPUT msg).
    - destruct (action_branch_frame msg st1)
        as (_ & _ & Ha' & Hf' & new' & Ht' & _).
      rewrite Hf', Ha', Ht', Ht, Ha.
      split; [exact Hf|].
      split; [exact Hans|].
      apply in_or_app; left; apply in_or_app; now right.
    - cbn [snd]; rewrite Ht, Ha.
      split; [exact Hf|].
      split; [exact Hans|].
      apply in_or_app; now right. }
  destruct Hst' as (Hfound & Hanswer & Hlogged).
  split; [exact Hfound|].
  unfold answer_of in Hans.
  destruct (find FINAL_ANSWER msg) as [n|]; [|discriminate].
  injection Hans as <-.
  exists n; split; [reflexivity|].
  split; [exact Hanswer|].
  split; [exact Hlogged|].
  intros Hrest; apply contains_false_find in Hrest.
  unfold before; now rewrite Hrest.
Qed.

(** While the completions carry no marker, the loop keeps asking: from a
    state with [n] classified iterations left it makes [n + 1] requests,
    the last of which is answered by the cap. *)
Lemma markerless_run :
  (forall pad, exists raw,
      get_chat_completions pad = ok (Body (ok raw)) /\
      contains FINAL_ANSWER raw = false /\
      contains ACTION_INPUT raw = false) ->
  forall n (st : state) fuel,
    current_iteration st + n = 10 ->
    n < fuel ->
    final_answer_found st = false ->
    let run := while_loop fuel st in
    fst run = Aborted MaxIterations /\
    requests (trace (snd run)) = requests (trace st) + S n /\
    current_iteration (snd run) = 11 /\
    exists t,
      trace (snd run) =
        t ++ [LogError (lit "Max iterations reached. Exiting");
              Print (scratch_pad (snd run))].
Proof.
  intros Hllm; induction n as [|n IH]; intros st fuel Hi Hfuel F.
  - destruct fuel as [|fuel]; [lia|].
    cbv zeta; rewrite while_loop_step, iteration_eq by assumption.
    destruct (Hllm (scratch_pad st)) as (raw & -> & _).
    cbv beta iota delta [ok].
    replace (current_iteration st) with 10 by lia.
    cbn [Nat.ltb Nat.leb fst snd]; cbv zeta.
    cbn [trace record requested scratch_pad incr_iteration
         current_iteration].
    split; [reflexivity|].
    split; [rewrite !requests_app; simpl; lia|].
    split; [lia|].
    exists (trace st ++ [Request (scratch_pad st)]).
    now rewrite <- !app_assoc.
  - destruct fuel as [|fuel]; [lia|].
    destruct (Hllm (scratch_pad st)) as (raw & Hraw & Hfa & Hai).
    assert (Hlt : current_iteration st < 10) by lia.
    pose proof (iteration_pass_through st raw Hlt Hraw Hfa Hai) as P.
    cbv zeta; rewrite while_loop_step, P by assumption.
    cbv beta iota delta [ok].
    destruct (IH (appended (strip raw) st) fuel) as (Ho & Hr & Hc & Hend);
      [simpl; lia|lia|exact F|].
    split; [exact Ho|].
    split; [|split; [exact Hc|exact Hend]].
    rewrite Hr.
    cbn [trace appended append_scratch_pad record requested].
    rewrite !requests_app; simpl; lia.
Qed.

(** C3 (what the code does).  When no completion carries a marker, the
    run ends through the cap, without raising, after printing the
    transcript; the cap is tested after the request of the iteration has
    been sent, so eleven requests are made, not ten, and the eleventh
    completion is dropped. *)
Theorem C3_cap_is_tested_after_the_eleventh_request
    (a : args) (fuel : nat) :
  11 <= fuel ->
  (forall pad, exists raw,
      get_chat_completions pad = ok (Body (ok raw)) /\
      contains FINAL_ANSWER raw = false /\
      contains ACTION_INPUT raw = false) ->
  let run := main fuel a in
  fst run = Aborted MaxIterations /\
  requests (trace (snd run)) = 11 /\
  current_iteration (snd run) = 11 /\
  exists t,
    trace (snd run) =
      t ++ [LogError (lit "Max iterations reached. Exiting");
            Print (scratch_pad (snd run))].
Proof.
  intros Hfuel Hllm.
  apply (markerless_run Hllm 10 (initial_state prompt a) fuel);
    [reflexivity|lia|reflexivity].
Qed.

End Loop.

(** ** The properties on concrete completions *)

(** A completion padded with white space reaches the transcript without
    the padding: the completion as the backend sent it occurs nowhere in
    the transcript. *)
Lemma C7_counterexample :
  scratch_pad (snd (Demo.iteration Demo.padded_thought Demo.start)) =
    scratch_pad Demo.start ++ NL ++ lit "Thought: hmm" /\
  scratch_pad (snd (Demo.iteration Demo.padded_thought Demo.start)) <>
    scratch_pad Demo.start ++ Demo.padded_thought /\
  scratch_pad (snd (Demo.iteration Demo.padded_thought Demo.start)) <>
    scratch_pad Demo.start ++ NL ++ Demo.padded_thought /\
  contains Demo.padded_thought
           (scratch_pad (snd (Demo.iteration Demo.padded_thought Demo.start)))
    = false.
Proof.
  vm_compute; repeat split; discriminate.
Qed.

Lemma C7_witness :
  fst (Demo.iteration Demo.padded_thought Demo.start) = ok Next /\
  scratch_pad (snd (Demo.iteration Demo.padded_thought Demo.start)) =
    scratch_pad Demo.start ++ NL ++ strip Demo.padded_thought.
Proof.
  destruct (C7_stripped_completion_is_appended_first
              str Demo.loads Demo.clock Demo.weather
              (Demo.replies Demo.padded_thought)
              Demo.start Demo.padded_thought)
    as (_ & _ & _ & H); [vm_compute; lia|reflexivity|].
  destruct H as (Hnext & Hpad & _); [reflexivity|reflexivity|].
  split; [exact Hnext|exact Hpad].
Defined.

(** With the marker twice in the completion, the recorded answer stops at
    the second marker: it is not all the text after the first one. *)
Lemma C6_counterexample :
  contains FINAL_ANSWER Demo.two_answers = true /\
  find FINAL_ANSWER Demo.two_answers = Some 0 /\
  strip (skipn (length FINAL_ANSWER) Demo.two_answers) =
    lit "A Final Answer: B" /\
  final_answer (snd (Demo.iteration Demo.two_answers Demo.start)) =
    Some (lit "A") /\
  final_answer (snd (Demo.iteration Demo.two_answers Demo.start)) <>
    Some (strip (skipn (length FINAL_ANSWER) Demo.two_answers)).
Proof.
  vm_compute; repeat split; discriminate.
Qed.

Lemma C6_witness :
  final_answer (snd (Demo.iteration Demo.two_answers Demo.start)) =
  Some (lit "A").
Proof.
  destruct (C6_final_answer_stops_at_next_marker
              str Demo.loads Demo.clock Demo.weather
              (Demo.replies Demo.two_answers)
              Demo.start Demo.two_answers)
    as (_ & n & Hn & Hanswer & _); [vm_compute; lia|reflexivity|reflexivity|].
  vm_compute in Hn; injection Hn as <-.
  exact Hanswer.
Defined.

(** A completion with the action-input marker alone. *)
Lemma C10_witness :
  fst (Demo.iteration Demo.input_without_action Demo.start) =
  throw IndexError.
Proof.
  refine (proj1 (C10_action_input_without_action_raises
                   str Demo.loads Demo.clock Demo.weather
                   (Demo.replies Demo.input_without_action)
                   Demo.start Demo.input_without_action _ _ _ _));
    [vm_compute; lia|reflexivity|reflexivity|reflexivity].
Defined.

(** A completion that asks for a tool the registry does not have. *)
Lemma C4_witness :
  fst (Demo.iteration Demo.unknown_action Demo.start) =
  ok (Break UnknownTool).
Proof.
  refine (proj1 (C4_unknown_tool_aborts
                   str Demo.loads Demo.clock Demo.weather
                   (Demo.replies Demo.unknown_action)
                   Demo.start Demo.unknown_action (lit "get_stock_price")
                   _ _ _ _ _));
    [vm_compute; lia|reflexivity|reflexivity|reflexivity|].
  vm_compute; intros [H|[H|[]]]; discriminate.
Defined.

(** A completion that asks for the weather: the tool is called with what
    [extract_json] returned and its text comes back as an observation. *)
Lemma C9_witness :
  fst (Demo.iteration Demo.weather_action Demo.start) = ok Next /\
  scratch_pad (snd (Demo.iteration Demo.weather_action Demo.start)) =
    scratch_pad Demo.start ++ NL ++ Demo.weather_action ++
    NL ++ lit "Observation: sunny".
Proof.
  destruct (C9_known_tool_is_called_and_errors_propagate
              str Demo.loads Demo.clock Demo.weather
              (Demo.replies Demo.weather_action)
              Demo.start Demo.weather_action
              (lit "get_weather") (quoted "{'city': 'Paris'}") Demo.weather)
    as ((Hnext & _ & Hpad) & _);
    [vm_compute; lia|reflexivity|reflexivity|reflexivity|reflexivity
    |reflexivity|].
  split; [exact Hnext|exact Hpad].
Defined.

(** A completion with a final answer and an action: the weather tool is
    called although the answer has been found. *)
Lemma C2_witness :
  final_answer_found
    (snd (Demo.iteration Demo.answer_and_action Demo.start)) = true /\
  In (ToolCall (lit "get_weather") (quoted "{'city': 'Paris'}"))
     (trace (snd (Demo.iteration Demo.answer_and_action Demo.start))).
Proof.
  destruct (C2_action_is_dispatched_after_final_answer
              str Demo.loads Demo.clock Demo.weather
              (Demo.replies Demo.answer_and_action)
              Demo.start Demo.answer_and_action
              (lit "get_weather") (quoted "{'city': 'Paris'}") Demo.weather
              (quoted "{'city': 'Paris'}"))
    as (Hfound & _ & _ & Hcall);
    [vm_compute; lia|reflexivity|reflexivity|reflexivity|reflexivity
    |reflexivity|reflexivity|reflexivity|].
  split; [exact Hfound|exact Hcall].
Defined.

(** A backend that only ever thinks: eleven requests are sent. *)
Lemma C3_witness :
  fst (Demo.main (lit "Thought: hmm")) = Aborted MaxIterations /\
  requests (trace (snd (Demo.main (lit "Thought: hmm")))) = 11.
Proof.
  destruct (C3_cap_is_tested_after_the_eleventh_request
              str Demo.loads Demo.clock Demo.weather Demo.prompt
              (Demo.replies (lit "Thought: hmm")) Demo.cli 11)
    as (Hout & Hreq & _); [lia| |].
  - intros pad; exists (lit "Thought: hmm").
    split; [reflexivity|split; reflexivity].
  - split; [exact Hout|exact Hreq].
Defined.

End AgentFacts.

(* ================================================================== *)
(** * More about extract_json *)
(* ================================================================== *)

Module JsonMore.

Import Json PyFacts JsonFacts Vocabulary.

Lemma nested_app (a b : str) : nested a -> nested b -> nested (a ++ b).
Proof.
  induction 1 as [|c l Ho Hc Hl IH|l1 l2 H1 IH1 H2 IH2]; intros Hb; simpl.
  - exact Hb.
  - apply nested_char; auto.
  - rewrite <- app_assoc; simpl.
    apply nested_braces; auto.
Qed.

Lemma unwinds_app (n : nat) :
  forall x y, nested x -> unwinds n y -> unwinds n (x ++ y).
Proof.
  destruct n as [|n]; intros x y Hx Hy; simpl in *.
  - now apply nested_app.
  - destruct Hy as (l1 & l2 & -> & H1 & H2).
    exists (x ++ l1), l2; rewrite <- app_assoc.
    repeat split; [now apply nested_app|exact H2].
Qed.

Section Blocks.

Variable value : Type.
Variable json_loads : str -> str + value.

(** The scan either runs out of text, or gets as far as [json.loads], and
    then the text it has run through closes the objects that were open and
    is properly nested otherwise. *)
Lemma scan_closes (s : str) (start : nat) (rest : str) :
  forall i n,
    scan json_loads s start i (Z.of_nat (S n)) rest = throw Incomplete \/
    exists body post,
      rest = body ++ "}"%char :: post /\
      unwinds n body /\
      scan json_loads s start i (Z.of_nat (S n)) rest =
        loads json_loads (slice s start (i + length body + 1)).
Proof.
  induction rest as [|c rest IH]; intros i n.
  - now left.
  - cbn [scan].
    destruct (Ascii.eqb c "{") eqn:Eo.
    + apply Ascii.eqb_eq in Eo; subst c.
      replace (Z.of_nat (S n) + 1)%Z with (Z.of_nat (S (S n))) by lia.
      destruct (IH (S i) (S n)) as [H|(body & post & -> & Hb & H)];
        [now left|right].
      destruct Hb as (l1 & l2 & -> & H1 & H2).
      exists ("{"%char :: l1 ++ "}"%char :: l2), post.
      split; [simpl; now rewrite <- app_assoc|].
      split.
      * apply (unwinds_app n ("{"%char :: l1 ++ ["}"%char]) l2) in H2.
        -- simpl in H2; now rewrite <- app_assoc in H2.
        -- apply (nested_braces l1 []); [exact H1|constructor].
      * rewrite H; f_equal; f_equal; simpl; lia.
    + destruct (Ascii.eqb c "}") eqn:Ec; cbv zeta.
      * apply Ascii.eqb_eq in Ec; subst c.
        destruct n as [|n].
        -- change (Z.of_nat 1 - 1 =? 0)%Z with true; cbv iota.
           right; exists [], rest; split; [reflexivity|].
           split; [constructor|].
           f_equal; f_equal; simpl; lia.
        -- replace (Z.of_nat (S (S n)) - 1)%Z with (Z.of_nat (S n)) by lia.
           destruct (Z.eqb_spec (Z.of_nat (S n)) 0) as [E|_]; [lia|].
           destruct (IH (S i) n) as [H|(body & post & -> & Hb & H)];
             [now left|right].
           exists ("}"%char :: body), post.
           split; [reflexivity|].
           split; [exists [], body; repeat split; [constructor|exact Hb]|].
           rewrite H; f_equal; f_equal; simpl; lia.
      * apply Ascii.eqb_neq in Eo, Ec.
        destruct (IH (S i) n) as [H|(body & post & -> & Hb & H)];
          [now left|right].
        exists (c :: body), post.
        split; [reflexivity|].
        split; [|rewrite H; f_equal; f_equal; simpl; lia].
        destruct n as [|n]; simpl in *.
        -- now apply nested_char.
        -- destruct Hb as (l1 & l2 & -> & H1 & H2).
           exists (c :: l1), l2; repeat split; [now apply nested_char|exact H2].
Qed.

(** From the first ["{"] on, [extract_json] is the scan with one object
    open. *)
Lemma extract_json_at_first_brace (pre rest : str) :
  ~ In "{"%char pre ->
  extract_json json_loads (pre ++ "{"%char :: rest) =
  scan json_loads (pre ++ "{"%char :: rest) (length pre) (S (length pre)) 1
       rest.
Proof.
  intros Hpre.
  rewrite extract_json_unfold, find_char_app by assumption.
  rewrite skipn_app, skipn_all, Nat.sub_diag; cbn [skipn app scan].
  now rewrite Ascii.eqb_refl.
Qed.

(** X1.  Every result of [extract_json] is one of three: no brace, no closing
    brace, or what [json.loads] makes of the object at the first ["{"],
    whose braces are then properly nested. *)
Theorem extract_json_cases (s : str) :
  extract_json json_loads s = throw NotFound \/
  extract_json json_loads s = throw Incomplete \/
  exists pre body post,
    s = pre ++ "{"%char :: body ++ "}"%char :: post /\
    ~ In "{"%char pre /\
    nested body /\
    extract_json json_loads s =
      loads json_loads ("{"%char :: body ++ ["}"%char]).
Proof.
  destruct (find ["{"%char] s) as [start|] eqn:F.
  - destruct (find_char_some _ _ _ F) as (pre & rest & -> & Hpre & ->).
    rewrite extract_json_at_first_brace by assumption.
    destruct (scan_closes (pre ++ "{"%char :: rest) (length pre) rest
                          (S (length pre)) 0)
      as [H|(body & post & -> & Hb & H)]; [right; now left|].
    right; right; exists pre, body, post.
    split; [reflexivity|].
    split; [exact Hpre|].
    split; [exact Hb|].
    change (Z.of_nat 1) with 1%Z in H; rewrite H; f_equal.
    set (blk := "{"%char :: body ++ ["}"%char]).
    replace (pre ++ "{"%char :: body ++ "}"%char :: post)
      with (pre ++ blk ++ post)
      by (unfold blk; simpl; now rewrite <- app_assoc).
    replace (S (length pre) + length body + 1)
      with (length pre + length blk)
      by (unfold blk; rewrite length_cons, length_app; simpl; lia).
    apply slice_middle.
  - left; now rewrite extract_json_unfold, F.
Qed.

(** The scan through an object whose braces are properly nested. *)
Lemma scan_block (pre body post : str) :
  nested body ->
  scan json_loads (pre ++ "{"%char :: body ++ "}"%char :: post)
       (length pre) (S (length pre)) 1 (body ++ "}"%char :: post) =
  loads json_loads ("{"%char :: body ++ ["}"%char]).
Proof.
  intros Hbody.
  rewrite scan_nested by (assumption || lia).
  cbn [scan].
  replace (Ascii.eqb "}" "{") with false by reflexivity.
  rewrite Ascii.eqb_refl; cbv zeta.
  change (1 - 1 =? 0)%Z with true; cbv iota.
  f_equal.
  set (blk := "{"%char :: body ++ ["}"%char]).
  replace (pre ++ "{"%char :: body ++ "}"%char :: post)
    with (pre ++ blk ++ post)
    by (unfold blk; simpl; now rewrite <- app_assoc).
  replace (S (length pre) + length body + 1)
    with (length pre + length blk)
    by (unfold blk; rewrite length_cons, length_app; simpl; lia).
  apply slice_middle.
Qed.

Lemma NotFound_is_not_Incomplete : @throw value NotFound <> throw Incomplete.
Proof. discriminate. Qed.

(** X2.  Only the text from the first ["{"] to the brace that closes it counts:
    text without ["{"] put in front changes no result, and text put behind
    changes no result once an object has been closed. *)
Theorem extract_json_reads_the_first_block_only :
  (forall pre s,
     ~ In "{"%char pre ->
     extract_json json_loads (pre ++ s) = extract_json json_loads s) /\
  (forall s post,
     extract_json json_loads s <> throw NotFound ->
     extract_json json_loads s <> throw Incomplete ->
     extract_json json_loads (s ++ post) = extract_json json_loads s).
Proof.
  split.
  - intros pre s Hpre.
    destruct (find ["{"%char] s) as [start|] eqn:F.
    + destruct (find_char_some _ _ _ F) as (p & rest & -> & Hp & ->).
      assert (Hpp : ~ In "{"%char (pre ++ p)).
      { intros H; apply in_app_or in H as [H|H]; auto. }
      rewrite (extract_json_at_first_brace p rest Hp).
      rewrite app_assoc, (extract_json_at_first_brace (pre ++ p) rest Hpp).
      destruct (scan_closes (p ++ "{"%char :: rest) (length p) rest
                            (S (length p)) 0)
        as [H|(body & post & -> & Hb & _)].
      * change (Z.of_nat 1) with 1%Z in H; rewrite H.
        assert (H1 : (1 <= 1)%Z) by lia.
        apply (proj2 (scan_Incomplete_iff _ json_loads _ _ rest _ 1%Z H1)).
        exact (proj1 (scan_Incomplete_iff _ json_loads _ _ rest _ 1%Z H1) H).
      * simpl in Hb; now rewrite !scan_block.
    + rewrite !extract_json_unfold, F.
      assert (F' : find ["{"%char] (pre ++ s) = None).
      { apply find_char_none; intros H.
        apply in_app_or in H as [H|H]; [auto|].
        now apply find_char_none in F. }
      now rewrite F'.
  - intros s post Hnf Hinc.
    destruct (find ["{"%char] s) as [start|] eqn:F;
      [|exfalso; apply Hnf; now rewrite extract_json_unfold, F].
    destruct (find_char_some _ _ _ F) as (pre & rest & -> & Hpre & ->).
    rewrite extract_json_at_first_brace in Hinc |- * by assumption.
    destruct (scan_closes (pre ++ "{"%char :: rest) (length pre) rest
                          (S (length pre)) 0)
      as [H|(body & post0 & -> & Hb & _)]; [contradiction|].
    simpl in Hb; rewrite scan_block by assumption.
    rewrite <- app_assoc; cbn [app]; rewrite <- app_assoc; cbn [app].
    rewrite extract_json_at_first_brace by assumption.
    now apply scan_block.
Qed.

End Blocks.

Lemma extract_json_reads_the_first_block_only_witness :
  extract_json (fun s : str => inr s) (lit "say " ++ quoted "{'a': 1}") =
    extract_json (fun s : str => inr s) (quoted "{'a': 1}") /\
  extract_json (fun s : str => inr s) (quoted "{'a': 1}" ++ lit " and more")
    = extract_json (fun s : str => inr s) (quoted "{'a': 1}").
Proof.
  destruct (extract_json_reads_the_first_block_only
              str (fun s : str => inr s)) as [Hpre Hpost].
  split.
  - apply Hpre; vm_compute; intuition discriminate.
  - apply Hpost; vm_compute; discriminate.
Defined.

End JsonMore.

(* ================================================================== *)
(** * More about the parsing of a completion (lines 184-192) *)
(* ================================================================== *)

Module ParseMore.

Import Agent PyFacts JsonFacts AgentFacts.

Lemma lstrip_suffix (s : str) : exists ws, s = ws ++ lstrip s.
Proof.
  induction s as [|c s [ws IH]]; simpl.
  - now exists [].
  - destruct (isspace c); [|now exists []].
    exists (c :: ws); simpl; now f_equal.
Qed.

Lemma lstrip_head (s : str) (x : ascii) (t : str) :
  lstrip s = x :: t -> isspace x = false.
Proof.
  induction s as [|c s IH]; simpl; [discriminate|].
  destruct (isspace c) eqn:E; [exact IH|].
  now intros [= <- _].
Qed.

Lemma lstrip_fixed (s : str) :
  (forall x t, s = x :: t -> isspace x = false) -> lstrip s = s.
Proof.
  destruct s as [|c s]; intros H; [reflexivity|].
  simpl; now rewrite (H c s eq_refl).
Qed.

Lemma In_lstrip (c : ascii) (s : str) : In c (lstrip s) -> In c s.
Proof.
  destruct (lstrip_suffix s) as [ws E]; intros H.
  rewrite E; apply in_or_app; now right.
Qed.

(** [strip] only removes characters. *)
Lemma In_strip (c : ascii) (s : str) : In c (strip s) -> In c s.
Proof.
  unfold strip, rstrip; intros H.
  apply In_lstrip, in_rev, In_lstrip; now apply in_rev in H.
Qed.

Lemma strip_head (s : str) (y : ascii) (r : str) :
  strip s = y :: r -> isspace y = false.
Proof.
  unfold strip, rstrip; intros H.
  destruct (lstrip_suffix (rev (lstrip s))) as [ws E].
  apply (f_equal (@rev ascii)) in E.
  rewrite rev_involutive, rev_app_distr, H in E; simpl in E.
  now apply lstrip_head in E.
Qed.

(** Stripping twice is stripping once. *)
Lemma strip_idempotent (s : str) : strip (strip s) = strip s.
Proof.
  assert (L : lstrip (strip s) = strip s)
    by (apply lstrip_fixed; intros x t; apply strip_head).
  unfold strip at 1; rewrite L.
  unfold strip, rstrip; rewrite rev_involutive; f_equal.
  apply lstrip_fixed; intros x t; apply lstrip_head.
Qed.

(** The text before the first occurrence of a character is free of it. *)
Lemma before_char_free (c : ascii) (s : str) : ~ In c (before [c] s).
Proof.
  unfold before; destruct (find [c] s) as [k|] eqn:F.
  - destruct (find_char_some _ _ _ F) as (pre & t & -> & Hpre & ->).
    now rewrite firstn_app, firstn_all, Nat.sub_diag, app_nil_r.
  - now apply find_char_none.
Qed.

(** X3.  What lines 189 and 190-192 hand on, the action name and the action
    input, is one line without white space around it: it has no newline
    and stripping it again changes nothing. *)
Theorem action_and_input_are_stripped_lines (msg a : str) :
  action_of msg = ok a \/ action_input_of msg = ok a ->
  ~ In "010"%char a /\ strip a = a.
Proof.
  rewrite action_of_eq, action_input_of_eq.
  intros [H|H];
    match type of H with
    | match ?f with _ => _ end = _ => destruct f; [|discriminate]
    end;
    injection H as <-;
    (split; [intros Hin; apply In_strip in Hin;
             now apply (before_char_free "010"%char) in Hin
            |apply strip_idempotent]).
Qed.

(** ** A completion in the format of the prompt *)

Lemma no_occurrence (sep s : str) :
  contains sep s = false -> forall a b, s <> a ++ sep ++ b.
Proof.
  intros H a b E.
  assert (T : contains sep s = true) by (apply contains_iff; eauto).
  congruence.
Qed.

Lemma find_startswith (sep s : str) :
  startswith sep s = true -> find sep s = Some 0.
Proof. intros H; destruct s; simpl; now rewrite H. Qed.

(** A marker whose first character does not come back in it cannot begin
    in one text and end in the next, when the next text begins with a
    character that the rest of the marker does not have. *)
Lemma contains_app_false (sep x y : str) (d : ascii) (y' : str) :
  y = d :: y' ->
  ~ In d (tl sep) ->
  contains sep x = false ->
  contains sep y = false ->
  contains sep (x ++ y) = false.
Proof.
  intros Hy Hd Hx Hyy.
  destruct (contains sep (x ++ y)) eqn:C; [exfalso|reflexivity].
  apply contains_iff in C as (a & b & E).
  apply app_eq_app in E as [l [[E1 E2]|[E1 E2]]].
  - apply app_eq_app in E2 as [l2 [[E3 E4]|[E3 E4]]].
    + destruct l as [|l0 l].
      * simpl in E3; subst l2.
        now apply (no_occurrence sep y Hyy [] b).
      * destruct l2 as [|d' l2].
        -- rewrite app_nil_r in E3; subst sep.
           apply (no_occurrence _ x Hx a []); now rewrite app_nil_r.
        -- subst y; injection E4 as <- _.
           apply Hd; subst sep; simpl.
           apply in_or_app; right; now left.
    + subst l; now apply (no_occurrence sep x Hx a l2).
  - now apply (no_occurrence sep y Hyy l b).
Qed.

(** The first occurrence of such a marker put behind a text free of it is
    where it was put. *)
Lemma find_after_clean_text (c : ascii) (t x y : str) :
  ~ In c t ->
  contains (c :: t) x = false ->
  find (c :: t) (x ++ (c :: t) ++ y) = Some (length x).
Proof.
  intros Hc; induction x as [|a x IH]; intros Hx.
  - apply find_startswith; exact (startswith_app (c :: t) y).
  - change ((a :: x) ++ (c :: t) ++ y) with (a :: x ++ (c :: t) ++ y).
    rewrite find_cons.
    destruct (startswith (c :: t) (a :: x ++ (c :: t) ++ y)) eqn:S.
    + exfalso; apply startswith_inv in S.
      change (a :: x ++ (c :: t) ++ y) with ((a :: x) ++ (c :: t) ++ y) in S.
      apply app_eq_app in S as [l [[E1 E2]|[E1 E2]]].
      * apply (no_occurrence _ _ Hx [] l); exact E1.
      * destruct l as [|l0 l].
        -- rewrite app_nil_r in E1.
           apply (no_occurrence _ _ Hx [] []); simpl.
           now rewrite app_nil_r.
        -- injection E2 as <- _; injection E1 as _ E1.
           apply Hc; rewrite E1; apply in_or_app; right; now left.
    + rewrite IH; [reflexivity|].
      destruct (contains (c :: t) x) eqn:C; [exfalso|reflexivity].
      apply contains_iff in C as (p & q & ->).
      now apply (no_occurrence _ _ Hx (a :: p) q).
Qed.

(** The line that follows a marker: when the line has neither a newline
    nor the marker, and the marker has no newline, cutting at the next
    marker and then at the first newline gives the line back. *)
Lemma line_before_next_marker (sep line rest : str) :
  sep <> [] ->
  ~ In "010"%char sep ->
  ~ In "010"%char line ->
  contains sep line = false ->
  rest = [] \/ (exists t, rest = "010"%char :: t) ->
  before NL (before sep (line ++ rest)) = line.
Proof.
  intros Hne Hsep Hline Hc [->|[t ->]].
  - rewrite app_nil_r; unfold before.
    apply contains_false_find in Hc; rewrite Hc.
    apply find_char_none in Hline; unfold NL; now rewrite Hline.
  - assert (Hcut : forall l', before NL (line ++ "010"%char :: l') = line).
    { intros l'; unfold before, NL.
      rewrite find_char_app by assumption.
      now rewrite firstn_app, firstn_all, Nat.sub_diag, app_nil_r. }
    unfold before at 2.
    destruct (find sep (line ++ "010"%char :: t)) as [k|] eqn:F;
      [|apply Hcut].
    pose proof (partition_find sep (line ++ "010"%char :: t)) as P.
    rewrite F in P; apply partition_app in P.
    set (a := firstn k (line ++ "010"%char :: t)) in *.
    set (b := skipn (k + length sep) (line ++ "010"%char :: t)) in *.
    clearbody a b.
    apply app_eq_app in P as [l [[E1 E2]|[E1 E2]]].
    + exfalso.
      apply app_eq_app in E2 as [l2 [[E3 E4]|[E3 E4]]].
      * destruct l2 as [|d l2].
        -- rewrite app_nil_r in E3; subst l.
           apply (no_occurrence sep line Hc a []); now rewrite app_nil_r.
        -- injection E4 as <- _.
           apply Hsep; rewrite E3; apply in_or_app; right; now left.
      * subst l; now apply (no_occurrence sep line Hc a l2).
    + destruct l as [|l0 l].
      * exfalso; destruct sep as [|s0 sep]; [congruence|].
        injection E2 as <- _; apply Hsep; now left.
      * injection E2 as <- _; rewrite E1; apply Hcut.
Qed.

Lemma find_marker (m head tail : str) (c : ascii) (t : str) :
  m = c :: t ->
  ~ In c t ->
  contains m head = false ->
  find m (head ++ m ++ tail) = Some (length head).
Proof. intros ->; apply find_after_clean_text. Qed.

Lemma skipn_past (head m tail : str) :
  skipn (length head + length m) (head ++ m ++ tail) = tail.
Proof.
  rewrite app_assoc, skipn_app, <- length_app, skipn_all, Nat.sub_diag.
  reflexivity.
Qed.

(** The marker ["Action Input:"] does not begin inside ["Action:"]. *)
Lemma contains_ACTION_INPUT_after_ACTION (y : str) :
  contains ACTION_INPUT (ACTION ++ y) = contains ACTION_INPUT y.
Proof.
  unfold contains, ACTION; cbn [lit String.list_ascii_of_string app].
  rewrite !find_cons.
  cbn [ACTION_INPUT lit String.list_ascii_of_string startswith
       Ascii.eqb Bool.eqb andb].
  destruct (find _ y); reflexivity.
Qed.

(** X4.  A completion written as the prompt asks, a thought, then
    ["Action:"] and a name on one line, then ["Action Input:"] and the
    input on one line, is read as that name and that input, without the
    white space around them. *)
Theorem formatted_completion_is_parsed (thought name input rest : str) :
  contains ACTION thought = false ->
  contains ACTION_INPUT thought = false ->
  ~ In "010"%char name ->
  contains ACTION name = false ->
  contains ACTION_INPUT name = false ->
  ~ In "010"%char input ->
  contains ACTION_INPUT input = false ->
  rest = [] \/ (exists t, rest = "010"%char :: t) ->
  let msg := thought ++ ACTION ++ name ++ NL ++
             ACTION_INPUT ++ input ++ rest in
  action_of msg = ok (strip name) /\
  action_input_of msg = ok (strip input).
Proof.
  intros Hta Hti Hn Hna Hni Hi Hii Hrest msg; split.
  - rewrite action_of_eq; unfold msg.
    rewrite (find_marker ACTION thought _ "A"%char (lit "ction:") eq_refl);
      [|vm_compute; intuition discriminate|exact Hta].
    rewrite skipn_past, line_before_next_marker; try assumption.
    + reflexivity.
    + discriminate.
    + vm_compute; intuition discriminate.
    + right; eexists; reflexivity.
  - assert (Hhead : contains ACTION_INPUT (thought ++ ACTION ++ name ++ NL)
                    = false).
    { apply (contains_app_false _ _ _ "A"%char
               (lit "ction:" ++ name ++ NL)); try assumption.
      - reflexivity.
      - vm_compute; intuition discriminate.
      - rewrite contains_ACTION_INPUT_after_ACTION.
        apply (contains_app_false _ _ _ "010"%char []); try assumption.
        + reflexivity.
        + vm_compute; intuition discriminate.
        + reflexivity. }
    rewrite action_input_of_eq.
    replace msg
      with ((thought ++ ACTION ++ name ++ NL) ++
            ACTION_INPUT ++ input ++ rest)
      by (unfold msg; now rewrite <- !app_assoc).
    rewrite (find_marker ACTION_INPUT _ _ "A"%char (lit "ction Input:")
                         eq_refl);
      [|vm_compute; intuition discriminate|exact Hhead].
    rewrite skipn_past, line_before_next_marker; try assumption.
    + reflexivity.
    + discriminate.
    + vm_compute; intuition discriminate.
Qed.

(** The reply of the prompt's example. *)
Lemma formatted_completion_is_parsed_witness :
  action_of Demo.weather_action = ok (lit "get_weather") /\
  action_input_of Demo.weather_action = ok (quoted "{'city': 'Paris'}").
Proof.
  refine (formatted_completion_is_parsed
            (lit "Thought: I need the weather" ++ NL)
            (lit " get_weather") (quoted " {'city': 'Paris'}") []
            _ _ _ _ _ _ _ _);
    try reflexivity;
    try (vm_compute; intuition discriminate).
Defined.

Lemma action_and_input_are_stripped_lines_witness :
  ~ In "010"%char (lit "get_weather") /\
  strip (lit "get_weather") = lit "get_weather".
Proof.
  apply (action_and_input_are_stripped_lines Demo.weather_action).
  left; reflexivity.
Defined.

End ParseMore.

(* ================================================================== *)
(** * More about the run of the loop (lines 152-203) *)
(* ================================================================== *)

Module RunMore.

Import Agent PyFacts AgentFacts Vocabulary.

Section Run.

Set Default Proof Using "Type".

Variable value : Type.
Variable json_loads : str -> str + value.
Variable get_current_time get_weather : tool value.
Variable prompt : str.
Variable get_chat_completions : str -> result response_body.

Local Abbreviation state := (Agent.state value).
Local Abbreviation tools := (tool_maps get_current_time get_weather).
Local Abbreviation iteration :=
  (Agent.iteration json_loads get_current_time get_weather
                   get_chat_completions).
Local Abbreviation while_loop :=
  (Agent.while_loop json_loads get_current_time get_weather
                    get_chat_completions).
Local Abbreviation main :=
  (Agent.main json_loads get_current_time get_weather prompt
              get_chat_completions).
Local Abbreviation iteration_frame :=
  (AgentFacts.iteration_frame value json_loads get_current_time get_weather
                              get_chat_completions).
Local Abbreviation while_loop_step :=
  (AgentFacts.while_loop_step value json_loads get_current_time get_weather
                              get_chat_completions).
Local Abbreviation while_loop_finished :=
  (AgentFacts.while_loop_finished value json_loads get_current_time get_weather
                                  get_chat_completions).

(** ** Invariants of the loop *)

(** What every pass through the body keeps, the run keeps. *)
Lemma while_loop_invariant (I : state -> Prop) :
  (forall st, I st -> I (snd (iteration st))) ->
  forall fuel st, I st -> I (snd (while_loop fuel st)).
Proof.
  intros Hstep; induction fuel as [|fuel IH]; intros st Hst.
  - simpl; now destruct (final_answer_found st).
  - destruct (final_answer_found st) eqn:F.
    + now rewrite while_loop_finished.
    + rewrite while_loop_step by assumption.
      specialize (Hstep st Hst).
      destruct (iteration st) as [[e|[|r]] st']; cbn [snd] in *; auto.
Qed.

(** The loop is left through its test only with the flag set. *)
Lemma while_loop_Finished (fuel : nat) :
  forall st, fst (while_loop fuel st) = Finished ->
             final_answer_found (snd (while_loop fuel st)) = true.
Proof.
  induction fuel as [|fuel IH]; intros st.
  - simpl; destruct (final_answer_found st) eqn:F; [now intros _|discriminate].
  - destruct (final_answer_found st) eqn:F.
    + now rewrite while_loop_finished.
    + rewrite while_loop_step by assumption.
      destruct (iteration st) as [[e|[|r]] st']; cbn [fst snd];
        try discriminate.
      apply IH.
Qed.

(** Fuel beyond what the cap leaves does not change the run. *)
Lemma while_loop_fuel_irrelevant (f1 : nat) :
  forall f2 st,
    10 - current_iteration st < f1 ->
    10 - current_iteration st < f2 ->
    while_loop f1 st = while_loop f2 st.
Proof.
  induction f1 as [|f1 IH]; intros f2 st H1 H2; [lia|].
  destruct f2 as [|f2]; [lia|].
  destruct (final_answer_found st) eqn:F.
  - now rewrite !while_loop_finished.
  - rewrite !while_loop_step by assumption.
    pose proof (iteration_frame st) as (_ & Hi & _).
    pose proof (iteration_at_cap value json_loads get_current_time get_weather
                                 get_chat_completions st) as Hcap.
    destruct (iteration st) as [[e|[|r]] st']; cbn [fst snd] in *;
      try reflexivity.
    destruct (Nat.le_gt_cases 10 (current_iteration st)) as [H|H];
      [exfalso; now apply Hcap|].
    apply IH; lia.
Qed.

(** ** How many requests, and what they carry *)

Lemma no_request_in (new : list (event value)) (c : str) :
  requests new = 0 -> ~ In (Request c) new.
Proof.
  induction new as [|e new IH]; intros H; [intros []|].
  destruct e; simpl in H; try discriminate;
    intros [E|Hin]; try discriminate; now apply IH.
Qed.

Lemma iteration_requests (st : state) :
  requests (trace (snd (iteration st))) = S (requests (trace st)).
Proof.
  pose proof (iteration_frame st) as (_ & _ & new & Ht & Hr).
  rewrite Ht, requests_app; simpl; lia.
Qed.

Lemma while_loop_requests_grow (fuel : nat) (st : state) :
  requests (trace st) <= requests (trace (snd (while_loop fuel st))).
Proof.
  apply (while_loop_invariant
           (fun st' => requests (trace st) <= requests (trace st')));
    [|lia].
  intros st' H; rewrite iteration_requests; lia.
Qed.

Lemma while_loop_requests_bound (fuel : nat) :
  forall st,
    current_iteration st <= 10 ->
    requests (trace (snd (while_loop fuel st))) + current_iteration st <=
    requests (trace st) + 11.
Proof.
  induction fuel as [|fuel IH]; intros st Hi.
  - simpl; destruct (final_answer_found st); simpl; lia.
  - destruct (final_answer_found st) eqn:F.
    + rewrite while_loop_finished by assumption; simpl; lia.
    + rewrite while_loop_step by assumption.
      pose proof (iteration_requests st) as Hr.
      pose proof (iteration_frame st) as (_ & Hc & _).
      pose proof (iteration_at_cap value json_loads get_current_time
                                   get_weather get_chat_completions st)
        as Hcap.
      destruct (iteration st) as [[e|[|r]] st']; cbn [fst snd] in *;
        try lia.
      destruct (Nat.le_gt_cases 10 (current_iteration st)) as [H|H];
        [exfalso; now apply Hcap|].
      assert (Hi' : current_iteration st' <= 10) by lia.
      specialize (IH st' Hi'); lia.
Qed.

(** X5.  Whatever the backend and the tools do, a run sends at least one and at
    most eleven requests, and it ends: eleven passes through the body are
    enough, and more change nothing. *)
Theorem main_sends_one_to_eleven_requests (fuel : nat) (a : args) :
  1 <= fuel ->
  1 <= requests (trace (snd (main fuel a))) <= 11 /\
  (11 <= fuel ->
   main fuel a = main 11 a /\ fst (main fuel a) <> OutOfFuel).
Proof.
  intros Hfuel; split; [split|].
  - destruct fuel as [|fuel]; [lia|].
    unfold Agent.main; rewrite while_loop_step by reflexivity.
    pose proof (iteration_requests (initial_state prompt a)) as Hr.
    destruct (iteration (initial_state prompt a)) as [[e|[|r]] st'];
      cbn [snd] in *; try lia.
    pose proof (while_loop_requests_grow fuel st'); lia.
  - pose proof (while_loop_requests_bound fuel (initial_state prompt a))
      as H.
    unfold Agent.main; simpl in H; lia.
  - intros H11; split.
    + apply while_loop_fuel_irrelevant; simpl; lia.
    + apply main_terminates; exact H11.
Qed.

(** X6.  Every request of a run carries a transcript that begins with the
    prompt and the question, and that the transcript at the end of the
    run extends: the model is never shown less than it was shown
    before. *)
Theorem every_request_carries_the_transcript
    (fuel : nat) (a : args) (c : str) :
  In (Request c) (trace (snd (main fuel a))) ->
  extends (prompt ++ NL ++ lit "Question: " ++ question a) c /\
  extends c (scratch_pad (snd (main fuel a))).
Proof.
  set (pad0 := prompt ++ NL ++ lit "Question: " ++ question a).
  assert (H : extends pad0 (scratch_pad (snd (main fuel a))) /\
              forall c, In (Request c) (trace (snd (main fuel a))) ->
                        extends pad0 c /\
                        extends c (scratch_pad (snd (main fuel a)))).
  { apply (while_loop_invariant
             (fun st => extends pad0 (scratch_pad st) /\
                        forall c, In (Request c) (trace st) ->
                                  extends pad0 c /\
                                  extends c (scratch_pad st))).
    - intros st [Hp Hreq].
      pose proof (iteration_frame st) as (He & _ & new & Ht & Hr).
      split; [now apply extends_trans with (scratch_pad st)|].
      intros c'; rewrite Ht; intros Hin.
      apply in_app_or in Hin as [Hin|[E|Hin]].
      + destruct (Hreq c' Hin) as [H1 H2].
        split; [exact H1|now apply extends_trans with (scratch_pad st)].
      + injection E as <-; now split.
      + now apply no_request_in in Hin.
    - split; [apply extends_refl|].
      intros c' [E|[]]; discriminate. }
  intros Hin; now apply H.
Qed.

(** ** Which tools are called *)

Local Abbreviation well_dispatched :=
  (dispatch_ok json_loads (map fst tools)).

Lemma dispatch_ok_app_bounded (n : nat) :
  forall a b : list (event value),
    length a <= n ->
    well_dispatched a -> well_dispatched b -> well_dispatched (a ++ b).
Proof.
  induction n as [|n IH]; intros a b Hn Ha Hb.
  { destruct a; [exact Hb|simpl in Hn; lia]. }
  destruct a as [|e a]; [exact Hb|].
  simpl in Hn.
  assert (Hskip : well_dispatched a -> well_dispatched (a ++ b))
    by (intros H; apply IH; [lia|exact H|exact Hb]).
  destruct e; try exact (Hskip Ha); try contradiction.
  destruct a as [|e' a].
  - destruct b as [|e'' b]; [exact I|].
    destruct e''; try exact Hb; contradiction.
  - destruct e'; try exact (Hskip Ha).
    destruct Ha as (H1 & H2 & H3).
    split; [exact H1|].
    split; [exact H2|].
    apply IH; [simpl in Hn; lia|exact H3|exact Hb].
Qed.

Lemma dispatch_ok_app (a b : list (event value)) :
  well_dispatched a -> well_dispatched b -> well_dispatched (a ++ b).
Proof. apply (dispatch_ok_app_bounded (length a)); lia. Qed.

Lemma tool_calls_app (a b : list (event value)) :
  tool_calls (a ++ b) = tool_calls a + tool_calls b.
Proof.
  induction a as [|[] a IH]; simpl; rewrite ?IH; reflexivity.
Qed.

Lemma no_dispatch_ok (l : list (event value)) :
  no_dispatch l = true -> well_dispatched l /\ tool_calls l = 0.
Proof.
  induction l as [|e l IH]; [now split|].
  destruct e; simpl; try discriminate; exact IH.
Qed.

Lemma dict_get_Some (d : list (str * tool value)) (key : str)
    (f : tool value) :
  dict_get d key = Some f -> In key (map fst d).
Proof.
  induction d as [|[k v] d IH]; simpl; [discriminate|].
  destruct (str_eqb k key) eqn:E.
  - apply str_eqb_eq in E; intros _; now left.
  - intros H; right; now apply IH.
Qed.

Lemma action_branch_dispatch (msg : str) (st : state) :
  exists new,
    trace (snd (Agent.action_branch json_loads get_current_time get_weather
                                    msg st)) = trace st ++ new /\
    well_dispatched new /\ tool_calls new <= 1.
Proof.
  rewrite action_branch_eq.
  destruct (action_of msg) as [e|action];
    [exists []; cbn [snd]; rewrite app_nil_r; simpl; auto|].
  destruct (action_input_of msg) as [e|input];
    [exists []; cbn [snd]; rewrite app_nil_r; simpl; auto|].
  destruct (dict_get tools action) as [f|] eqn:D.
  - apply dict_get_Some in D; cbv zeta.
    destruct (Json.extract_json json_loads input) as [e|arguments] eqn:E.
    + exists [ExtractJson input]; cbn [snd trace record]; simpl; auto.
    + destruct (f arguments) as [e|tool_response].
      * exists [ExtractJson input; ToolCall action arguments].
        cbn [snd trace record]; rewrite <- app_assoc.
        split; [reflexivity|split; [|simpl; lia]].
        simpl; auto.
      * exists [ExtractJson input; ToolCall action arguments;
                LogDebug (OBSERVATION ++ tool_response)].
        cbn [snd trace record append_scratch_pad]; rewrite <- !app_assoc.
        split; [reflexivity|split; [|simpl; lia]].
        simpl; auto.
  - exists [LogError (lit "Tool not found. Exiting!")].
    cbn [snd trace record]; simpl; auto.
Qed.

(** What one pass through the body adds to the trace: at most one tool
    call, made as the registry and [extract_json] allow, and none once
    the counter has reached the cap. *)
Lemma iteration_dispatch (st : state) :
  exists new,
    trace (snd (iteration st)) = trace st ++ new /\
    well_dispatched new /\
    tool_calls new <= 1 /\
    (10 <= current_iteration st -> tool_calls new = 0).
Proof.
  rewrite iteration_eq.
  destruct (get_chat_completions (scratch_pad st)) as [e|body].
  { exists [Request (scratch_pad st)]; cbn [snd trace record requested].
    simpl; auto. }
  destruct (Nat.ltb_spec 10 (S (current_iteration st))) as [Hcap|Hcap].
  { eexists; cbv zeta; cbn [snd trace record requested].
    rewrite <- !app_assoc; split; [reflexivity|simpl; auto]. }
  destruct (content body) as [e|raw].
  { exists [Request (scratch_pad st)]; cbn [snd trace record requested].
    split; [reflexivity|simpl; repeat split; auto]. }
  set (msg := strip raw).
  destruct (classify_after_answer_test value json_loads get_current_time
              get_weather msg (appended msg st))
    as (st1 & new1 & E & _ & Ht1 & Hd1 & _).
  apply no_dispatch_ok in Hd1 as [Hd1 Hc1].
  rewrite E.
  assert (Hhead : trace (appended msg st) =
                  trace st ++ [Request (scratch_pad st); LogDebug msg]).
  { cbn [trace appended append_scratch_pad record requested].
    now rewrite <- app_assoc. }
  destruct (contains ACTION_INPUT msg).
  - destruct (action_branch_dispatch msg st1) as (new2 & Ht2 & Hd2 & Hc2).
    exists ([Request (scratch_pad st); LogDebug msg] ++ new1 ++ new2).
    rewrite Ht2, Ht1, Hhead, <- !app_assoc.
    split; [reflexivity|].
    split; [|split; [|lia]].
    + apply (dispatch_ok_app [Request (scratch_pad st); LogDebug msg]);
        [exact I|now apply dispatch_ok_app].
    + rewrite !tool_calls_app, Hc1; simpl; lia.
  - exists ([Request (scratch_pad st); LogDebug msg] ++ new1).
    cbn [snd]; rewrite Ht1, Hhead, <- !app_assoc.
    split; [reflexivity|].
    split; [|split; [|lia]].
    + apply (dispatch_ok_app [Request (scratch_pad st); LogDebug msg]);
        [exact I|exact Hd1].
    + rewrite !tool_calls_app, Hc1; simpl; lia.
Qed.

Lemma while_loop_tool_calls_bound (fuel : nat) :
  forall st,
    current_iteration st <= 10 ->
    tool_calls (trace (snd (while_loop fuel st))) + current_iteration st <=
    tool_calls (trace st) + 10.
Proof.
  induction fuel as [|fuel IH]; intros st Hi.
  - simpl; destruct (final_answer_found st); simpl; lia.
  - destruct (final_answer_found st) eqn:F.
    + rewrite while_loop_finished by assumption; simpl; lia.
    + rewrite while_loop_step by assumption.
      destruct (iteration_dispatch st) as (new & Ht & _ & H1 & H0).
      pose proof (iteration_frame st) as (_ & Hc & _).
      pose proof (iteration_at_cap value json_loads get_current_time
                                   get_weather get_chat_completions st)
        as Hcap.
      assert (Hnew : tool_calls (trace (snd (iteration st))) + 
                     current_iteration st <= tool_calls (trace st) + 10).
      { rewrite Ht, tool_calls_app.
        destruct (Nat.le_gt_cases 10 (current_iteration st)) as [H|H];
          [rewrite (H0 H)|]; lia. }
      destruct (iteration st) as [[e|[|r]] st']; cbn [fst snd] in *;
        try exact Hnew.
      destruct (Nat.le_gt_cases 10 (current_iteration st)) as [H|H];
        [exfalso; now apply Hcap|].
      assert (Hi' : current_iteration st' <= 10) by lia.
      specialize (IH st' Hi').
      rewrite Ht, tool_calls_app in *; lia.
Qed.

(** X7.  In every run, a tool function is called only under a name of the
    registry, directly after [extract_json] has returned the arguments it
    is called with, and at most ten times. *)
Theorem tools_are_called_as_registered (fuel : nat) (a : args) :
  dispatch_ok json_loads (map fst tools) (trace (snd (main fuel a))) /\
  tool_calls (trace (snd (main fuel a))) <= 10.
Proof.
  split.
  - apply (while_loop_invariant (fun st => well_dispatched (trace st)));
      [|exact I].
    intros st H.
    destruct (iteration_dispatch st) as (new & -> & Hd & _).
    now apply dispatch_ok_app.
  - pose proof (while_loop_tool_calls_bound fuel (initial_state prompt a))
      as H.
    unfold Agent.main; simpl in H; lia.
Qed.

(** ** How a run ends *)

Local Abbreviation classify_after_answer_test :=
  (AgentFacts.classify_after_answer_test value json_loads get_current_time
                                         get_weather).
Local Abbreviation action_branch_frame :=
  (AgentFacts.action_branch_frame value json_loads get_current_time
                                  get_weather).

Lemma iteration_answered (st : state) :
  answered st -> answered (snd (iteration st)).
Proof.
  unfold answered; intros Hst.
  assert (Hreq : final_answer_found (requested st) = true ->
                 exists answer,
                   final_answer (requested st) = Some answer /\
                   In (LogInfo answer) (trace (requested st))).
  { cbn [final_answer_found final_answer trace requested record
         incr_iteration].
    intros F; destruct (Hst F) as (answer & H1 & H2).
    exists answer; split; [exact H1|apply in_or_app; now left]. }
  rewrite iteration_eq.
  destruct (get_chat_completions (scratch_pad st)) as [e|body];
    [exact Hreq|].
  destruct (10 <? S (current_iteration st)).
  { cbv zeta; cbn [snd final_answer_found final_answer trace record].
    intros F; destruct (Hreq F) as (answer & H1 & H2).
    exists answer; split; [exact H1|].
    apply in_or_app; left; apply in_or_app; now left. }
  destruct (content body) as [e|raw]; [exact Hreq|].
  set (msg := strip raw).
  destruct (classify_after_answer_test msg (appended msg st))
    as (st1 & new1 & E & _ & Ht1 & _ & Hf1 & Ha1 & Hlog).
  assert (H1 : final_answer_found st1 = true ->
               exists answer,
                 final_answer st1 = Some answer /\
                 In (LogInfo answer) (trace st1)).
  { rewrite Hf1, Ha1, Ht1; destruct (contains FINAL_ANSWER msg).
    - intros _; destruct (Hlog eq_refl) as (answer & Hans & Hin).
      exists answer; split; [exact Hans|apply in_or_app; now right].
    - cbn [orb final_answer_found final_answer trace appended
           append_scratch_pad record].
      intros F; destruct (Hreq F) as (answer & H1 & H2).
      exists answer; split; [exact H1|].
      apply in_or_app; left; apply in_or_app; now left. }
  rewrite E; destruct (contains ACTION_INPUT msg); [|exact H1].
  destruct (action_branch_frame msg st1) as (_ & _ & Ha & Hf & new & Ht & _).
  rewrite Hf, Ha, Ht; intros F.
  destruct (H1 F) as (answer & H2 & H3).
  exists answer; split; [exact H2|apply in_or_app; now left].
Qed.

(** X8.  A run that ends through the loop test has recorded a final answer and
    logged it. *)
Theorem finished_run_has_logged_its_answer (fuel : nat) (a : args) :
  fst (main fuel a) = Finished ->
  exists answer,
    final_answer (snd (main fuel a)) = Some answer /\
    In (LogInfo answer) (trace (snd (main fuel a))).
Proof.
  intros H.
  apply (while_loop_invariant answered iteration_answered fuel
                              (initial_state prompt a)).
  - intros F; discriminate.
  - now apply while_loop_Finished.
Qed.

(** X9.  When the request fails, or when, within the cap, the response has no
    text to read, the run ends with that exception: the request is not
    made again, nothing is logged and the transcript is as it was. *)
Theorem backend_failure_ends_the_run (st : state) (e : exn) (fuel : nat) :
  final_answer_found st = false ->
  get_chat_completions (scratch_pad st) = throw e \/
  (current_iteration st < 10 /\
   get_chat_completions (scratch_pad st) = ok (Body (throw e))) ->
  fst (while_loop (S fuel) st) = Raised e /\
  scratch_pad (snd (while_loop (S fuel) st)) = scratch_pad st /\
  final_answer (snd (while_loop (S fuel) st)) = final_answer st /\
  trace (snd (while_loop (S fuel) st)) =
    trace st ++ [Request (scratch_pad st)].
Proof.
  intros F H.
  assert (R : iteration st = (inl e, requested st)).
  { rewrite iteration_eq; destruct H as [->|[Hi ->]]; [reflexivity|].
    cbv beta iota delta [ok].
    destruct (Nat.ltb_spec 10 (S (current_iteration st))); [lia|].
    reflexivity. }
  rewrite while_loop_step, R by assumption.
  repeat split.
Qed.

(** The body breaks for the cap only in the branch of line 170. *)
Lemma iteration_breaks_for_cap (st : state) :
  fst (iteration st) = ok (Break MaxIterations) ->
  10 <= current_iteration st /\
  snd (iteration st) =
    record (Print (scratch_pad st))
           (record (LogError (lit "Max iterations reached. Exiting"))
                   (requested st)).
Proof.
  rewrite iteration_eq.
  destruct (get_chat_completions (scratch_pad st)) as [e|body];
    [discriminate|].
  destruct (Nat.ltb_spec 10 (S (current_iteration st))) as [Hcap|Hcap].
  { intros _; split; [lia|reflexivity]. }
  destruct (content body) as [e|raw]; [discriminate|].
  set (msg := strip raw).
  destruct (classify_after_answer_test msg (appended msg st))
    as (st1 & new1 & E & _).
  rewrite E; destruct (contains ACTION_INPUT msg); [|discriminate].
  rewrite action_branch_eq.
  destruct (action_of msg) as [e|action]; [discriminate|].
  destruct (action_input_of msg) as [e|input]; [discriminate|].
  destruct (dict_get tools action) as [f|]; [|discriminate].
  cbv zeta.
  destruct (Json.extract_json json_loads input) as [e|arguments];
    [discriminate|].
  destruct (f arguments); discriminate.
Qed.

Lemma while_loop_aborts_for_cap (fuel : nat) :
  forall st,
    requests (trace st) = current_iteration st ->
    current_iteration st <= 10 ->
    fst (while_loop fuel st) = Aborted MaxIterations ->
    requests (trace (snd (while_loop fuel st))) = 11 /\
    current_iteration (snd (while_loop fuel st)) = 11 /\
    exists t,
      trace (snd (while_loop fuel st)) =
        t ++ [LogError (lit "Max iterations reached. Exiting");
              Print (scratch_pad (snd (while_loop fuel st)))].
Proof.
  induction fuel as [|fuel IH]; intros st Hr Hi.
  - simpl; destruct (final_answer_found st); discriminate.
  - destruct (final_answer_found st) eqn:F.
    + rewrite while_loop_finished by assumption; discriminate.
    + rewrite while_loop_step by assumption.
      pose proof (iteration_requests st) as Hr'.
      pose proof (iteration_frame st) as (_ & Hc & _).
      pose proof (iteration_breaks_for_cap st) as Hb.
      pose proof (iteration_at_cap value json_loads get_current_time
                                   get_weather get_chat_completions st)
        as Hcap.
      destruct (iteration st) as [[e|[|r]] st']; cbn [fst snd] in *;
        try discriminate.
      * destruct (Nat.le_gt_cases 10 (current_iteration st)) as [H|H];
          [exfalso; now apply Hcap|].
        apply IH; lia.
      * intros [= ->]; destruct (Hb eq_refl) as [H10 ->].
        cbn [trace record requested scratch_pad current_iteration
             incr_iteration].
        split; [rewrite !requests_app; simpl; lia|].
        split; [lia|].
        exists (trace st ++ [Request (scratch_pad st)]).
        now rewrite <- !app_assoc.
Qed.

(** X10.  Whatever the backend answers, a run is aborted for the cap only after
    exactly eleven requests, and then the last thing it does is print the
    transcript as it stands. *)
Theorem cap_abort_comes_after_eleven_requests (fuel : nat) (a : args) :
  fst (main fuel a) = Aborted MaxIterations ->
  requests (trace (snd (main fuel a))) = 11 /\
  current_iteration (snd (main fuel a)) = 11 /\
  exists t,
    trace (snd (main fuel a)) =
      t ++ [LogError (lit "Max iterations reached. Exiting");
            Print (scratch_pad (snd (main fuel a)))].
Proof.
  apply while_loop_aborts_for_cap; [reflexivity|simpl; lia].
Qed.

(** ** A tool call followed by the answer *)

Local Abbreviation iteration_reaches_action_branch :=
  (AgentFacts.iteration_reaches_action_branch value json_loads
     get_current_time get_weather get_chat_completions).
Local Abbreviation iteration_classifies :=
  (AgentFacts.iteration_classifies value json_loads get_current_time
                                   get_weather get_chat_completions).

(** Within the cap, a completion that asks for a registered tool whose
    call succeeds adds the completion and the observation to the
    transcript and goes back to the loop test. *)
Lemma iteration_tool_success
    (st : state) (raw name input : str) (f : tool value)
    (arguments : value) (tool_response : str) :
  current_iteration st < 10 ->
  get_chat_completions (scratch_pad st) = ok (Body (ok raw)) ->
  contains FINAL_ANSWER raw = false ->
  contains ACTION_INPUT raw = true ->
  action_of (strip raw) = ok name ->
  action_input_of (strip raw) = ok input ->
  dict_get tools name = Some f ->
  Json.extract_json json_loads input = ok arguments ->
  f arguments = ok tool_response ->
  fst (iteration st) = ok Next /\
  final_answer_found (snd (iteration st)) = final_answer_found st /\
  scratch_pad (snd (iteration st)) =
    scratch_pad st ++ NL ++ strip raw ++ NL ++ OBSERVATION ++ tool_response /\
  In (ToolCall name arguments) (trace (snd (iteration st))).
Proof.
  intros Hi Hllm Hfa Hai Hname Hinput Htool Hargs Hcall.
  destruct (iteration_reaches_action_branch st raw Hi Hllm Hai)
    as (st1 & new & E & Hp & Ht & _ & Hf & _).
  rewrite Hfa in Hf; cbn [orb] in Hf.
  rewrite E, action_branch_eq, Hname, Hinput.
  cbv beta iota delta [ok]; rewrite Htool; cbv zeta.
  unfold ok in Hargs, Hcall; rewrite Hargs, Hcall.
  cbn [fst snd final_answer_found scratch_pad trace record
       append_scratch_pad].
  split; [reflexivity|].
  split; [exact Hf|].
  split; [now rewrite Hp, <- !app_assoc|].
  apply in_or_app; left; apply in_or_app; right; now left.
Qed.

(** Within the cap, a completion with a final answer and no action input
    records the answer and goes back to the loop test. *)
Lemma iteration_answer_only (st : state) (raw : str) :
  current_iteration st < 10 ->
  get_chat_completions (scratch_pad st) = ok (Body (ok raw)) ->
  contains FINAL_ANSWER raw = true ->
  contains ACTION_INPUT raw = false ->
  fst (iteration st) = ok Next /\
  final_answer_found (snd (iteration st)) = true /\
  final_answer (snd (iteration st)) = answer_of (strip raw) /\
  scratch_pad (snd (iteration st)) = scratch_pad st ++ NL ++ strip raw /\
  tool_calls (trace (snd (iteration st))) = tool_calls (trace st).
Proof.
  intros Hi Hllm Hfa Hai.
  rewrite (iteration_classifies st raw Hi Hllm).
  destruct (classify_after_answer_test (strip raw)
                                       (appended (strip raw) st))
    as (st1 & new & E & Hp & Ht & Hd & Hf & Ha & _).
  rewrite contains_ACTION_INPUT_strip, Hai in E.
  rewrite contains_FINAL_ANSWER_strip, Hfa in Hf, Ha.
  rewrite E; cbn [fst snd].
  split; [reflexivity|].
  split; [exact Hf|].
  split; [exact Ha|].
  split; [exact Hp|].
  apply no_dispatch_ok in Hd as [_ Hd].
  rewrite Ht, tool_calls_app, Hd.
  cbn [trace appended append_scratch_pad record requested].
  rewrite !tool_calls_app; simpl; lia.
Qed.

(** X11.  The two kinds of iteration compose: when the first completion asks
    for a registered tool and the call succeeds, the second request
    carries the first completion and the observation, and when the
    completion that comes back has the final answer the run ends with it,
    after two requests and one tool call. *)
Theorem tool_call_then_final_answer
    (a : args) (fuel : nat) (raw1 name input : str) (f : tool value)
    (arguments : value) (tool_response raw2 : str) :
  2 <= fuel ->
  let pad0 := prompt ++ NL ++ lit "Question: " ++ question a in
  let pad1 := pad0 ++ NL ++ strip raw1 ++ NL ++ OBSERVATION ++ tool_response in
  get_chat_completions pad0 = ok (Body (ok raw1)) ->
  contains FINAL_ANSWER raw1 = false ->
  contains ACTION_INPUT raw1 = true ->
  action_of (strip raw1) = ok name ->
  action_input_of (strip raw1) = ok input ->
  dict_get tools name = Some f ->
  Json.extract_json json_loads input = ok arguments ->
  f arguments = ok tool_response ->
  get_chat_completions pad1 = ok (Body (ok raw2)) ->
  contains FINAL_ANSWER raw2 = true ->
  contains ACTION_INPUT raw2 = false ->
  fst (main fuel a) = Finished /\
  final_answer (snd (main fuel a)) = answer_of (strip raw2) /\
  scratch_pad (snd (main fuel a)) = pad1 ++ NL ++ strip raw2 /\
  requests (trace (snd (main fuel a))) = 2 /\
  In (Request pad1) (trace (snd (main fuel a))) /\
  In (ToolCall name arguments) (trace (snd (main fuel a))) /\
  tool_calls (trace (snd (main fuel a))) <= 1.
Proof.
  intros Hfuel pad0 pad1 Hllm1 Hfa1 Hai1 Hname Hinput Htool Hargs Hcall
         Hllm2 Hfa2 Hai2.
  destruct fuel as [|[|fuel]]; try lia.
  set (st0 := initial_state prompt a : state).
  assert (Hi0 : current_iteration st0 < 10) by (simpl; lia).
  destruct (iteration_tool_success st0 raw1 name input f arguments
              tool_response Hi0 Hllm1 Hfa1 Hai1 Hname Hinput Htool Hargs
              Hcall) as (Hn1 & Hf1 & Hp1 & Hc1).
  pose proof (iteration_frame st0) as (_ & Hit1 & new1 & Ht1 & Hr1).
  destruct (iteration_dispatch st0) as (d1 & Hd1 & _ & Hk1 & _).
  unfold Agent.main; fold st0.
  rewrite while_loop_step by reflexivity.
  destruct (iteration st0) as [r1 st1] eqn:E1; cbn [fst snd] in *.
  subst r1; cbv beta iota delta [ok].
  change (scratch_pad st0) with pad0 in Hp1; fold pad1 in Hp1.
  assert (Hi1 : current_iteration st1 < 10) by (rewrite Hit1; simpl; lia).
  rewrite <- Hp1 in Hllm2.
  destruct (iteration_answer_only st1 raw2 Hi1 Hllm2 Hfa2 Hai2)
    as (Hn2 & Hf2 & Ha2 & Hp2 & Hk2).
  pose proof (iteration_frame st1) as (_ & _ & new2 & Ht2 & Hr2).
  rewrite while_loop_step by (rewrite Hf1; reflexivity).
  destruct (iteration st1) as [r2 st2] eqn:E2; cbn [fst snd] in *.
  subst r2; cbv beta iota delta [ok].
  rewrite while_loop_finished by assumption; cbn [fst snd].
  split; [reflexivity|].
  split; [exact Ha2|].
  split; [now rewrite Hp2, Hp1|].
  split; [rewrite Ht2, Ht1, !requests_app; simpl; lia|].
  split; [rewrite Ht2, Hp1; apply in_or_app; right; now left|].
  split; [rewrite Ht2; apply in_or_app; now left|].
  rewrite Hk2, Hd1, tool_calls_app; simpl; lia.
Qed.

End Run.

(** ** The properties on concrete runs *)

Lemma main_sends_one_to_eleven_requests_witness :
  1 <= requests (trace (snd (Demo.main (lit "Final Answer: 42")))) <= 11.
Proof.
  apply (main_sends_one_to_eleven_requests
           str Demo.loads Demo.clock Demo.weather Demo.prompt
           (Demo.replies (lit "Final Answer: 42")) 11 Demo.cli).
  lia.
Defined.

Lemma every_request_carries_the_transcript_witness :
  extends (Demo.prompt ++ NL ++ lit "Question: " ++ question Demo.cli)
          (scratch_pad Demo.start) /\
  extends (scratch_pad Demo.start)
          (scratch_pad (snd (Demo.main (lit "Final Answer: 42")))).
Proof.
  apply (every_request_carries_the_transcript
           str Demo.loads Demo.clock Demo.weather Demo.prompt
           (Demo.replies (lit "Final Answer: 42")) 11 Demo.cli
           (scratch_pad Demo.start)).
  vm_compute; auto.
Defined.

Lemma finished_run_has_logged_its_answer_witness :
  exists answer,
    final_answer (snd (Demo.main (lit "Final Answer: 42"))) = Some answer /\
    In (LogInfo answer) (trace (snd (Demo.main (lit "Final Answer: 42")))).
Proof.
  apply (finished_run_has_logged_its_answer
           str Demo.loads Demo.clock Demo.weather Demo.prompt
           (Demo.replies (lit "Final Answer: 42")) 11 Demo.cli).
  reflexivity.
Defined.

Lemma backend_failure_ends_the_run_witness :
  fst (Agent.while_loop Demo.loads Demo.clock Demo.weather
         (fun _ => throw (External (lit "ConnectionError"))) 1 Demo.start) =
  Raised (External (lit "ConnectionError")).
Proof.
  apply (backend_failure_ends_the_run
           str Demo.loads Demo.clock Demo.weather
           (fun _ => throw (External (lit "ConnectionError")))
           Demo.start (External (lit "ConnectionError")) 0).
  - reflexivity.
  - left; reflexivity.
Defined.

Lemma cap_abort_comes_after_eleven_requests_witness :
  requests (trace (snd (Demo.main (lit "Thought: hmm")))) = 11.
Proof.
  apply (cap_abort_comes_after_eleven_requests
           str Demo.loads Demo.clock Demo.weather Demo.prompt
           (Demo.replies (lit "Thought: hmm")) 11 Demo.cli).
  reflexivity.
Defined.

Lemma tool_call_then_final_answer_witness :
  fst (Agent.main Demo.loads Demo.clock Demo.weather Demo.prompt
                  scripted 11 Demo.cli) = Finished /\
  final_answer
    (snd (Agent.main Demo.loads Demo.clock Demo.weather Demo.prompt
                     scripted 11 Demo.cli)) =
    Some (lit "It is sunny in Paris").
Proof.
  destruct (tool_call_then_final_answer
              str Demo.loads Demo.clock Demo.weather Demo.prompt scripted
              Demo.cli 11 Demo.weather_action
              (lit "get_weather") (quoted "{'city': 'Paris'}")
              Demo.weather (quoted "{'city': 'Paris'}") (lit "sunny")
              (lit "Thought: I now know the final answer" ++ NL ++
               lit "Final Answer: It is sunny in Paris"))
    as (Hout & Hanswer & _);
    try reflexivity; [lia|].
  split; [exact Hout|exact Hanswer].
Defined.

End RunMore.

(* ================================================================== *)
(** * The tool functions and the catalogue *)
(* ================================================================== *)

Module ToolsMore.

Import Agent PyFacts AgentFacts Tools.


Section Weather.

Variable jv : Type.
Variable json_dumps : jv -> str.


End Weather.

Section Keywords.

Variable jv : Type.
Variable json_dumps : jv -> str.
Variable zero : jv.
Variable strftime_now_plus : jv -> result str.


End Keywords.


(** X15.  The names shown to the model in the prompt are the keys of the
    registry, in the same order: an action is answered with "Tool not
    found" exactly when it names no tool of the catalogue. *)
Theorem catalogue_names_are_the_registry_keys
    (value : Type) (get_current_time get_weather : tool value) :
  map fst (tool_maps get_current_time get_weather) = tool_names /\
  forall action,
    dict_get (tool_maps get_current_time get_weather) action = None <->
    ~ In action tool_names.
Proof.
  split; [reflexivity|].
  intros action; apply dict_get_None.
Qed.

End ToolsMore.

(* ================================================================== *)
(** * More about the recorded answer (line 184) *)
(* ================================================================== *)

Module AnswerMore.

Import Agent PyFacts AgentFacts ParseMore RunMore.

(** A text that holds a copy of [sep] has its first occurrence no later
    than that copy. *)
Lemma find_at_most (sep a c : str) :
  exists j, find sep (a ++ sep ++ c) = Some j /\ j <= length a.
Proof.
  induction a as [|x a (j & IH & Hj)].
  - exists 0; split; [|simpl; lia].
    apply find_startswith; exact (startswith_app sep c).
  - change ((x :: a) ++ sep ++ c) with (x :: a ++ sep ++ c).
    rewrite find_cons.
    destruct (startswith sep (x :: a ++ sep ++ c)).
    + exists 0; split; [reflexivity|simpl; lia].
    + rewrite IH; exists (S j); split; [reflexivity|simpl; lia].
Qed.

(** The text before the first occurrence of a marker is free of it. *)
Lemma before_free (sep s : str) :
  sep <> [] -> contains sep (before sep s) = false.
Proof.
  intros Hne; unfold before.
  destruct (find sep s) as [k|] eqn:F; [|now apply contains_false_find].
  destruct (contains sep (firstn k s)) eqn:C; [exfalso|reflexivity].
  apply contains_iff in C as (a & b & E).
  destruct (find_at_most sep a (b ++ skipn k s)) as (j & Hj & Hle).
  assert (Es : s = a ++ sep ++ b ++ skipn k s).
  { rewrite <- (firstn_skipn k s) at 1; rewrite E.
    now rewrite <- !app_assoc. }
  rewrite <- Es, F in Hj; injection Hj as <-.
  apply (f_equal (@length ascii)) in E.
  rewrite !length_app in E.
  pose proof (firstn_le_length k s) as Hk.
  destruct sep; [congruence|simpl in E; lia].
Qed.

(** What line 184 records is free of the marker and of white space
    around it. *)
Lemma answer_of_is_clean (msg answer : str) :
  answer_of msg = Some answer ->
  strip answer = answer /\ contains FINAL_ANSWER answer = false.
Proof.
  unfold answer_of; destruct (find FINAL_ANSWER msg); [|discriminate].
  intros [= <-]; split; [apply strip_idempotent|].
  rewrite contains_FINAL_ANSWER_strip.
  apply before_free, FINAL_ANSWER_nonempty.
Qed.

Section Run.

Set Default Proof Using "Type".

Variable value : Type.
Variable json_loads : str -> str + value.
Variable get_current_time get_weather : tool value.
Variable prompt : str.
Variable get_chat_completions : str -> result response_body.

Local Abbreviation state := (Agent.state value).
Local Abbreviation iteration :=
  (Agent.iteration json_loads get_current_time get_weather
                   get_chat_completions).
Local Abbreviation main :=
  (Agent.main json_loads get_current_time get_weather prompt
              get_chat_completions).

(** A pass through the body leaves the recorded answer as it was or
    replaces it by what line 184 takes from a completion. *)
Lemma iteration_answer (st : state) :
  final_answer (snd (iteration st)) = final_answer st \/
  exists msg answer,
    answer_of msg = Some answer /\
    final_answer (snd (iteration st)) = Some answer.
Proof.
  rewrite iteration_eq.
  destruct (get_chat_completions (scratch_pad st)) as [e|body];
    [now left|].
  destruct (10 <? S (current_iteration st)); [now left|].
  destruct (content body) as [e|raw]; [now left|].
  set (msg := strip raw).
  destruct (classify_after_answer_test value json_loads get_current_time
              get_weather msg (appended msg st))
    as (st1 & new1 & E & _ & _ & _ & _ & Ha1 & Hlog).
  assert (H1 : final_answer st1 = final_answer st \/
               exists m answer,
                 answer_of m = Some answer /\
                 final_answer st1 = Some answer).
  { rewrite Ha1; destruct (contains FINAL_ANSWER msg); [|now left].
    destruct (Hlog eq_refl) as (answer & Hans & _).
    right; exists msg, answer; now split. }
  rewrite E; destruct (contains ACTION_INPUT msg); [|exact H1].
  destruct (action_branch_frame value json_loads get_current_time
              get_weather msg st1) as (_ & _ & Ha & _).
  now rewrite Ha.
Qed.

(** X12.  The final answer a run records never has white space around it and
    never contains the marker ["Final Answer:"]. *)
Theorem recorded_answer_is_clean (fuel : nat) (a : args) (answer : str) :
  final_answer (snd (main fuel a)) = Some answer ->
  strip answer = answer /\ contains FINAL_ANSWER answer = false.
Proof.
  revert answer.
  apply (while_loop_invariant value json_loads get_current_time get_weather
           get_chat_completions
           (fun st => forall answer,
                        final_answer st = Some answer ->
                        strip answer = answer /\
                        contains FINAL_ANSWER answer = false)).
  - intros st Hst answer.
    destruct (iteration_answer st) as [->|(msg & ans & Hans & ->)];
      [apply Hst|].
    intros [= <-]; now apply (answer_of_is_clean msg).
  - discriminate.
Qed.

End Run.

Lemma recorded_answer_is_clean_witness :
  strip (lit "A") = lit "A" /\ contains FINAL_ANSWER (lit "A") = false.
Proof.
  apply (recorded_answer_is_clean
           str Demo.loads Demo.clock Demo.weather Demo.prompt
           (Demo.replies Demo.two_answers) 11 Demo.cli).
  reflexivity.
Defined.

End AnswerMore.
